(** * Dragonfly core: ASCII bit-packing codec and StringMap key encoding

    A shallow embedding of [src/core/detail/bitpacking.cc] and
    [src/core/string_map.cc], with the properties the specification
    states about them and, in the last sections, further properties of
    the same functions read off the code.

    Conventions.
    - A byte is a [Z] in [0, 256): the bit pattern of a [char] or [uint8_t].
    - A buffer is a [list Z]; a pointer into it is a [nat] offset.  Reading
      past the end yields 0 and writing past the end does nothing; both are
      undefined behaviour in C++, so the theorems assume buffers that are
      large enough.
    - [while] loops are [Fixpoint]s on a fuel argument that the enclosing
      function sets to the length it was given, which bounds the number of
      iterations of every loop here; the lemmas on the loops hold for
      every fuel from that length on.
    - The allocator, the hash function of the xxhash library and the
      signedness of [char] are section variables. *)

From Stdlib Require Import ZArith Lia List Bool Btauto Ascii String DecimalString.
From coqutil Require Import Z.bitblast.
From stdpp Require Import base numbers list gmap.

Local Open Scope Z_scope.
Local Open Scope list_scope.

(** ** Bytes and buffers *)

Definition is_byte (b : Z) : Prop := 0 <= b < 256.
Definition is_ascii (b : Z) : Prop := 0 <= b < 128.

Definition peek (m : list Z) (i : nat) : Z := default 0 (m !! i).
Definition poke (m : list Z) (i : nat) (v : Z) : list Z := <[i := v]> m.

(** [load_bytes m a n] is [m[a .. a+n)], [store_bytes m b bs] writes [bs]
    at [m[b ..]], one byte at a time from the lowest address. *)
Definition load_bytes (m : list Z) (a n : nat) : list Z :=
  map (peek m) (seq a n).

Fixpoint store_bytes (m : list Z) (b : nat) (bs : list Z) : list Z :=
  match bs with
  | [] => m
  | x :: bs' => store_bytes (poke m b x) (S b) bs'
  end.

(** Little-endian encoding of an unsigned integer. *)
Fixpoint le_combine (bs : list Z) : Z :=
  match bs with
  | [] => 0
  | b :: bs' => Z.lor b (Z.shiftl (le_combine bs') 8)
  end.

Fixpoint le_split (n : nat) (w : Z) : list Z :=
  match n with
  | O => []
  | S n' => Z.land w 255 :: le_split n' (Z.shiftr w 8)
  end.

(** [absl::little_endian::Load64] and [Store64]. *)
Definition Load64 (m : list Z) (a : nat) : Z := le_combine (load_bytes m a 8).
Definition Store64 (m : list Z) (b : nat) (w : Z) : list Z :=
  store_bytes m b (le_split 8 w).

(** ** The SSE2 operations used by the codec

    A 128-bit register is two unsigned 64-bit lanes, [lane0] holding
    bytes 0..7 of the register. *)

Record m128i : Type := M128 { lane0 : Z; lane1 : Z }.

Definition wrap64 (x : Z) : Z := x mod 2 ^ 64.

Definition _mm_setzero_si128 : m128i := M128 0 0.
Definition _mm_set1_epi64x (x : Z) : m128i := M128 (wrap64 x) (wrap64 x).
Definition _mm_loadu_si128 (m : list Z) (a : nat) : m128i :=
  M128 (Load64 m a) (Load64 m (a + 8)).
Definition _mm_storeu_si128 (m : list Z) (b : nat) (v : m128i) : list Z :=
  Store64 (Store64 m b (lane0 v)) (b + 8) (lane1 v).
Definition _mm_or_si128 (x y : m128i) : m128i :=
  M128 (Z.lor (lane0 x) (lane0 y)) (Z.lor (lane1 x) (lane1 y)).
Definition _mm_and_si128 (x y : m128i) : m128i :=
  M128 (Z.land (lane0 x) (lane0 y)) (Z.land (lane1 x) (lane1 y)).
Definition _mm_srli_epi64 (x : m128i) (n : Z) : m128i :=
  M128 (Z.shiftr (lane0 x) n) (Z.shiftr (lane1 x) n).
Definition _mm_slli_epi64 (x : m128i) (n : Z) : m128i :=
  M128 (wrap64 (Z.shiftl (lane0 x) n)) (wrap64 (Z.shiftl (lane1 x) n)).

(** The mask of the most significant bits of the 8 bytes of a lane. *)
Definition msb_bit (x : Z) (k : Z) : Z :=
  if Z.testbit x (8 * k + 7) then Z.shiftl 1 k else 0.
Definition movemask64 (x : Z) : Z :=
  fold_right (fun k acc => Z.lor (msb_bit x k) acc) 0 [0; 1; 2; 3; 4; 5; 6; 7].
Definition _mm_movemask_epi8 (v : m128i) : Z :=
  Z.lor (movemask64 (lane0 v)) (Z.shiftl (movemask64 (lane1 v)) 8).

(** No byte of a 64-bit lane has its high bit set. *)
Definition lane_clear (x : Z) : Prop :=
  forall k, 0 <= k < 8 -> Z.testbit x (8 * k + 7) = false.

(** No byte of a register has its high bit set. *)
Definition reg_clear (v : m128i) : Prop :=
  lane_clear (lane0 v) /\ lane_clear (lane1 v).

(** ** bitpacking.cc *)

Section Codec.

(** Plain [char] is signed on x86-64 and unsigned on aarch64; the file is
    built for both. *)
Variable char_signed : bool.

(** Integral promotion of a [char] with bit pattern [c], and the
    conversion of an [int] back to a [char] or a [uint8_t]. *)
Definition char_to_int (c : Z) : Z :=
  if char_signed && (128 <=? c) then c - 256 else c.
Definition int_to_byte (x : Z) : Z := x mod 256.

(** *** validate_ascii_fast *)

(** [for (; i <= len - 16; i += 16) has_error |= load(src + i)] *)
Fixpoint validate_blocks (fuel : nat) (src : list Z) (len i : nat)
    (has_error : m128i) : nat * m128i :=
  match fuel with
  | O => (i, has_error)
  | S fuel' =>
      if (i <=? len - 16)%nat then
        let current_bytes := _mm_loadu_si128 src i in
        validate_blocks fuel' src len (i + 16)
          (_mm_or_si128 has_error current_bytes)
      else (i, has_error)
  end.

(** [for (; i < len; i++) tail_has_error |= src[i]] *)
Fixpoint validate_tail (fuel : nat) (src : list Z) (len i : nat)
    (tail_has_error : Z) : Z :=
  match fuel with
  | O => tail_has_error
  | S fuel' =>
      if (i <? len)%nat then
        validate_tail fuel' src len (S i)
          (int_to_byte (Z.lor (char_to_int tail_has_error)
                              (char_to_int (peek src i))))
      else tail_has_error
  end.

Definition validate_ascii_fast (src : list Z) (len : nat) : bool :=
  let '(i, has_error) :=
    if (16 <=? len)%nat
    then validate_blocks len src len 0 _mm_setzero_si128
    else (0%nat, _mm_setzero_si128) in
  let error_mask := _mm_movemask_epi8 has_error in
  let tail_has_error := validate_tail len src len i 0 in
  let error_mask := Z.lor error_mask (Z.land (char_to_int tail_has_error) 128) in
  error_mask =? 0.

(** *** ascii_pack *)

(** One turn of [for (i = 1; i <= 7; ++i)]: [val >>= 1] and
    [dest |= (val & (0x7FUL << 7 * i))], on [uint64_t]. *)
Definition pack_step (st : Z * Z) (i : Z) : Z * Z :=
  let '(val, dest) := st in
  let val := Z.shiftr val 1 in
  (val, Z.lor dest (Z.land val (wrap64 (Z.shiftl 127 (7 * i))))).

Definition pack_word (val : Z) : Z :=
  let dest := Z.land val 255 in
  snd (fold_left pack_step [1; 2; 3; 4; 5; 6; 7] (val, dest)).

(** [while (ascii + 8 <= end)]: pointers are offsets, [e] is [end]. *)
Fixpoint pack_groups (fuel : nat) (ascii : list Z) (a e : nat)
    (bin : list Z) (b : nat) : nat * nat * list Z :=
  match fuel with
  | O => (a, b, bin)
  | S fuel' =>
      if (a + 8 <=? e)%nat then
        let val := Load64 ascii a in
        let dest := pack_word val in
        (* memcpy(bin, &dest, 7) on a little-endian host *)
        let bin := store_bytes bin b (le_split 7 dest) in
        pack_groups fuel' ascii (a + 8) e bin (b + 7)
      else (a, b, bin)
  end.

(** [while (ascii < end) *bin++ = *ascii++]. *)
Fixpoint pack_epilog (fuel : nat) (ascii : list Z) (a e : nat)
    (bin : list Z) (b : nat) : list Z :=
  match fuel with
  | O => bin
  | S fuel' =>
      if (a <? e)%nat then
        pack_epilog fuel' ascii (S a) e (poke bin b (peek ascii a)) (S b)
      else bin
  end.

(** [ascii_pack(ascii + a, len, bin + b)]; the result is the buffer
    behind [bin] after the call. *)
Definition ascii_pack (ascii : list Z) (a len : nat) (bin : list Z) (b : nat)
    : list Z :=
  let e := (a + len)%nat in
  let '(a', b', bin') := pack_groups len ascii a e bin b in
  pack_epilog len ascii a' e bin' b'.

(** *** ascii_pack_simd *)

(** One turn of the inner loop.  The three intrinsics are pure functions
    of their operands and the source drops the results of the first and
    the third, so [val] and [dest] leave the turn as they entered it. *)
Definition pack_simd_step (mask : m128i) (st : m128i * m128i) (i : Z)
    : m128i * m128i :=
  let '(val, dest) := st in
  let _ := _mm_srli_epi64 val 1 in
  let shmask := _mm_slli_epi64 mask (7 * i) in
  let _ := _mm_or_si128 dest (_mm_and_si128 val shmask) in
  (val, dest).

(** [while (ascii <= end)] with [end = ascii + len - 32], which lies
    before the buffer when [len < 32]: the comparison is on [Z]. *)
Fixpoint pack_simd_loop (fuel : nat) (mask : m128i) (ascii : list Z) (a : nat)
    (e : Z) (bin : list Z) (b : nat) : nat * nat * list Z :=
  match fuel with
  | O => (a, b, bin)
  | S fuel' =>
      if Z.of_nat a <=? e then
        let val := _mm_loadu_si128 ascii a in
        let dest := _mm_and_si128 val mask in
        let '(_, dest) :=
          fold_left (pack_simd_step mask) [1; 2; 3; 4; 5; 6; 7] (val, dest) in
        let bin := _mm_storeu_si128 bin b dest in
        (* memcpy(bin + 7, bin + 8, 7): the source lies one byte above
           the destination, the copy behaves as memmove *)
        let bin := store_bytes bin (b + 7) (load_bytes bin (b + 8) 7) in
        pack_simd_loop fuel' mask ascii (a + 16) e bin (b + 14)
      else (a, b, bin)
  end.

Definition ascii_pack_simd (ascii : list Z) (a len : nat) (bin : list Z)
    (b : nat) : list Z :=
  let mask := _mm_set1_epi64x 127 in
  let e := Z.of_nat a + Z.of_nat len - 32 in
  let '(a', b', bin') := pack_simd_loop len mask ascii a e bin b in
  let e := e + 32 in
  ascii_pack ascii a' (Z.to_nat (e - Z.of_nat a')) bin' b'.

(** *** ascii_unpack *)

(** One turn of [for (i = 0; i < 7; ++i)]; the state is [p], the two
    pointers and the destination buffer.  [bin] and [ascii] are separate
    buffers here: unpacking in place is not modelled. *)
Definition unpack_step (bin : list Z) (st : Z * nat * nat * list Z) (i : Z)
    : Z * nat * nat * list Z :=
  let '(p, b, o, ascii) := st in
  let src := peek bin b in
  let c := Z.lor (Z.shiftr p (8 - i)) (Z.land (Z.shiftl src i) 127) in
  (src, S b, S o, poke ascii o (int_to_byte c)).

Fixpoint unpack_groups (fuel : nat) (bin : list Z) (p : Z) (b ascii_len : nat)
    (ascii : list Z) (o : nat) : nat * nat * list Z * nat :=
  match fuel with
  | O => (b, ascii_len, ascii, o)
  | S fuel' =>
      if (8 <=? ascii_len)%nat then
        let '(p, b, o, ascii) :=
          fold_left (unpack_step bin) [0; 1; 2; 3; 4; 5; 6] (p, b, o, ascii) in
        let ascii_len := (ascii_len - 8)%nat in
        let ascii := poke ascii o (int_to_byte (Z.shiftr p 1)) in
        unpack_groups fuel' bin p b ascii_len ascii (S o)
      else (b, ascii_len, ascii, o)
  end.

(** [for (i = 0; i < ascii_len; ++i) *ascii++ = *bin++]. *)
Fixpoint unpack_tail (fuel : nat) (bin : list Z) (b i ascii_len : nat)
    (ascii : list Z) (o : nat) : list Z :=
  match fuel with
  | O => ascii
  | S fuel' =>
      if (i <? ascii_len)%nat then
        unpack_tail fuel' bin (S b) (S i) ascii_len
          (poke ascii o (peek bin b)) (S o)
      else ascii
  end.

(** [ascii_unpack(bin + b, ascii_len, ascii + o)]; the result is the
    buffer behind [ascii] after the call. *)
Definition ascii_unpack (bin : list Z) (b ascii_len : nat) (ascii : list Z)
    (o : nat) : list Z :=
  let '(b', ascii_len', ascii', o') :=
    unpack_groups ascii_len bin 0 b ascii_len ascii o in
  unpack_tail ascii_len bin b' 0 ascii_len' ascii' o'.

(** *** compare_packed *)

(** One turn of [for (i = 0; i < 7; ++i)]:
    [conv = (ascii[0] >> i) | (ascii[1] << (7 - i))] as [uint8_t]. *)
Definition compare_step (packed ascii : list Z) (st : bool * nat * nat)
    (i : Z) : bool * nat * nat :=
  let '(res, a, p) := st in
  let conv :=
    int_to_byte (Z.lor (Z.shiftr (char_to_int (peek ascii a)) i)
                       (Z.shiftl (char_to_int (peek ascii (a + 1))) (7 - i))) in
  (res && (conv =? peek packed p), S a, S p).

(** [while (ascii + 8 <= end)]; [inl r] is [return r] from inside the
    loop, [inr (a, p)] is leaving the loop with these pointers. *)
Fixpoint compare_groups (fuel : nat) (packed ascii : list Z) (res : bool)
    (a e p : nat) : bool + nat * nat :=
  match fuel with
  | O => inr (a, p)
  | S fuel' =>
      if (a + 8 <=? e)%nat then
        let '(res, a, p) :=
          fold_left (compare_step packed ascii) [0; 1; 2; 3; 4; 5; 6]
                    (res, a, p) in
        if negb res then inl false
        else compare_groups fuel' packed ascii res (S a) e p
      else inr (a, p)
  end.

(** [while (ascii < end)], returning false at the first pair
    [*ascii++], [*packed++] that differs; then [return true]. *)
Fixpoint compare_tail (fuel : nat) (packed ascii : list Z) (a e p : nat)
    : bool :=
  match fuel with
  | O => true
  | S fuel' =>
      if (a <? e)%nat then
        if negb (char_to_int (peek ascii a) =? peek packed p) then false
        else compare_tail fuel' packed ascii (S a) e (S p)
      else true
  end.

(** [compare_packed(packed + p, ascii + a, ascii_len)]. *)
Definition compare_packed (packed : list Z) (p : nat) (ascii : list Z)
    (a ascii_len : nat) : bool :=
  let e := (a + ascii_len)%nat in
  match compare_groups ascii_len packed ascii true a e p with
  | inl r => r
  | inr (a', p') => compare_tail ascii_len packed ascii a' e p'
  end.

End Codec.

(** Modelled from the spec: [binpacked_len] of bitpacking.h, which is not
    among the sources; 7 bytes for every full group of 8 and the rest
    verbatim.  [pack_bytes_length] below checks it against what
    [ascii_pack] writes. *)
Definition binpacked_len (ascii_len : nat) : nat :=
  (7 * (ascii_len / 8) + ascii_len mod 8)%nat.

(** *** The bytes the scalar packer writes

    [ascii_pack] only ever writes at [bin] and moves it forward, so what
    it leaves behind is a function of the bytes it read.  [pack_bytes] is
    that function; [ascii_pack_spec] below proves the two agree. *)

Definition packed_byte (x y j : Z) : Z :=
  int_to_byte (Z.lor (Z.shiftr x j) (Z.shiftl y (7 - j))).

Definition pack8 (g : list Z) : list Z := le_split 7 (pack_word (le_combine g)).

Fixpoint pack_bytes (s : list Z) : list Z :=
  match s with
  | b0 :: b1 :: b2 :: b3 :: b4 :: b5 :: b6 :: b7 :: s' =>
      pack8 [b0; b1; b2; b3; b4; b5; b6; b7] ++ pack_bytes s'
  | _ => s
  end.

(** *** The bytes the unpacker writes

    [unpack8 p q] runs the body of the [while] loop of [ascii_unpack] once,
    on seven packed bytes [q] and a fresh 8-byte destination, [p] being
    the last byte the previous turn read.  [unpack_bytes n p q] is what
    [n] turns and the final copy loop leave behind; [ascii_unpack_any]
    below proves that [ascii_unpack] writes it. *)

Definition unpack8 (p : Z) (q : list Z) : list Z :=
  let '(p1, _, o1, ascii) :=
    fold_left (unpack_step q) [0; 1; 2; 3; 4; 5; 6]
              (p, 0%nat, 0%nat, repeat 0 8) in
  poke ascii o1 (int_to_byte (Z.shiftr p1 1)).

Fixpoint unpack_bytes (groups : nat) (p : Z) (q : list Z) : list Z :=
  match groups with
  | O => q
  | S n => unpack8 p (take 7 q) ++ unpack_bytes n (peek q 6) (drop 7 q)
  end.

(** Strings of the sources as byte lists. *)
Definition bytes_of_string (s : string) : list Z :=
  map (fun c => Z.of_N (N_of_ascii c)) (list_ascii_of_string s).
Definition string_of_bytes (bs : list Z) : string :=
  string_of_list_ascii (map (fun b => ascii_of_N (Z.to_N b)) bs).

(** ** CompactObj *)

Module CompactObj.

(** [kSeed] of compact_object_test.cc. *)
Definition kSeed : Z := 24061983.

Section WithHash.

(** [XXH3_64bits_withSeed] of the xxhash library: data, then seed. *)
Variable XXH3_64bits_withSeed : list Z -> Z -> Z.

(** Modelled from the spec: the static [CompactObj::HashCode(string_view)]
    of compact_object.cc, which is not among the sources; a fixed-seed
    64-bit hash of the raw byte sequence. *)
Definition HashCode_of (str : list Z) : Z := XXH3_64bits_withSeed str kSeed.

Variable char_signed : bool.
(** The constants the spec leaves to the implementation. *)
Variable inline_cap : nat.
Variable int_width : Z.

(** Modelled from the spec: the payload of a [CompactObj] (compact_object.h
    and compact_object.cc are not among the sources), a closed sum with
    only the data each variant needs. *)
Inductive payload : Type :=
| EMPTY
| INLINE_ASCII_PACKED (len : nat) (packed : list Z)
| INLINE_RAW (bytes : list Z)
| SMALL_INT (ival : Z)
| FOREIGN_POINTER (bytes : list Z).

Record t : Type := Obj { repr : payload; expire_bit : bool; flag_bit : bool }.

(** Decimal text of an integer, and the integer a text denotes. *)
Definition decimal_text (i : Z) : list Z :=
  bytes_of_string (NilZero.string_of_int (Z.to_int i)).
Definition decimal_value (s : list Z) : option Z :=
  option_map Z.of_int (NilZero.int_of_string (string_of_bytes s)).

Definition list_Z_eqb (x y : list Z) : bool := bool_decide (x = y).

(** Modelled from the spec: step 1 of the decision order of [SetString],
    the string is the canonical decimal text of an integer of the
    small-int width. *)
Definition as_small_int (s : list Z) : option Z :=
  match decimal_value s with
  | Some i =>
      if list_Z_eqb (decimal_text i) s
         && (- 2 ^ (int_width - 1) <=? i) && (i <? 2 ^ (int_width - 1))
      then Some i else None
  | None => None
  end.

(** Modelled from the spec: the decision order of section 4.2. *)
Definition encode (s : list Z) : payload :=
  match as_small_int s with
  | Some i => SMALL_INT i
  | None =>
      let len := length s in
      if (binpacked_len len <=? inline_cap)%nat
         && validate_ascii_fast char_signed s len
      then INLINE_ASCII_PACKED len
             (ascii_pack s 0 len (repeat 0 (binpacked_len len)) 0)
      else if (len <=? inline_cap)%nat then INLINE_RAW s
      else FOREIGN_POINTER s
  end.

(** Modelled from the spec: [SetString] mutates the payload in place and
    keeps the two metadata bits. *)
Definition SetString (s : list Z) (o : t) : t :=
  Obj (encode s) (expire_bit o) (flag_bit o).

(** Modelled from the spec: the logical string ([GetString]), unpacking
    when the storage is packed. *)
Definition GetString (o : t) : list Z :=
  match repr o with
  | EMPTY => []
  | INLINE_ASCII_PACKED len packed => ascii_unpack packed 0 len (repeat 0 len) 0
  | INLINE_RAW bytes => bytes
  | SMALL_INT i => decimal_text i
  | FOREIGN_POINTER bytes => bytes
  end.

(** Modelled from the spec: [HashCode()] and [operator==], both over the
    logical bytes. *)
Definition HashCode (o : t) : Z := HashCode_of (GetString o).
Definition equal (x y : t) : bool := list_Z_eqb (GetString x) (GetString y).

End WithHash.

End CompactObj.

(** ** StringMap *)

Module StringMap.

(** An sds allocation: the length its header records and the bytes that
    follow the header.  An [sds] is the address of those bytes. *)
Record sds_block : Type := SdsBlock { sds_len : nat; sds_buf : list Z }.

(** The heap and the objects held by the set the map derives from, most
    recent first. *)
Record state : Type := State { heap : gmap Z sds_block; entries : list Z }.

(** A call returns, aborts ([CHECK], [LOG(FATAL)], allocation failure) in
    the state it had reached, or has undefined behaviour. *)
Inductive outcome (A : Type) : Type :=
| Done (a : A) (st : state)
| Fatal (st : state)
| Undefined.
Arguments Done {A} a st.
Arguments Fatal {A} st.
Arguments Undefined {A}.

Definition M (A : Type) : Type := state -> outcome A.

Definition ret {A : Type} (a : A) : M A := fun st => Done a st.
Definition bind {A B : Type} (m : M A) (k : A -> M B) : M B :=
  fun st =>
    match m st with
    | Done a st' => k a st'
    | Fatal st' => Fatal st'
    | Undefined => Undefined
    end.
Definition fatal {A : Type} : M A := fun st => Fatal st.
Definition undefined {A : Type} : M A := fun _ => Undefined.

Declare Scope sm_scope.
Delimit Scope sm_scope with sm.
Notation "x <- m ;; k" := (bind m (fun x => k))
  (at level 100, m at next level, right associativity) : sm_scope.
Notation "m ;; k" := (bind m (fun _ => k))
  (at level 100, right associativity) : sm_scope.
Local Open Scope sm_scope.

Definition UINT32_MAX : Z := 2 ^ 32 - 1.
Definition to_uint32 (x : Z) : Z := x mod 2 ^ 32.

Definition CHECK_EQ (x y : Z) : M unit :=
  if decide (x = y) then ret tt else fatal.

(** Accesses to an allocation; outside of one they are undefined. *)
Definition read_block (s : Z) : M sds_block :=
  fun st => match heap st !! s with
            | Some blk => Done blk st
            | None => Undefined
            end.
Definition write_buf (s : Z) (off : nat) (bs : list Z) : M unit :=
  fun st => match heap st !! s with
            | Some blk =>
                if decide (off + length bs <= length (sds_buf blk))%nat then
                  Done tt (State (<[s := SdsBlock (sds_len blk)
                                          (store_bytes (sds_buf blk) off bs)]>
                                   (heap st))
                                 (entries st))
                else Undefined
            | None => Undefined
            end.

Definition sdslen (s : Z) : M nat := blk <- read_block s ;; ret (sds_len blk).

(** [string_view{s, sdslen(s)}]. *)
Definition sds_view (s : Z) : M (list Z) :=
  blk <- read_block s ;;
  if decide (sds_len blk <= length (sds_buf blk))%nat
  then ret (take (sds_len blk) (sds_buf blk)) else undefined.

(** [absl::little_endian::Load64(s + off)] and [Store64(s + off, w)]. *)
Definition Load64_at (s : Z) (off : nat) : M Z :=
  blk <- read_block s ;;
  if decide (off + 8 <= length (sds_buf blk))%nat
  then ret (Load64 (sds_buf blk) off) else undefined.
Definition Store64_at (s : Z) (off : nat) (w : Z) : M unit :=
  write_buf s off (le_split 8 w).

Section WithAllocator.

(** The address the allocator picks for a new block, given the addresses
    in use; [None] when it has none left. *)
Variable zmalloc : gset Z -> option Z.
Variable XXH3_64bits_withSeed : list Z -> Z -> Z.

Definition alloc (blk : sds_block) : M Z :=
  fun st => match zmalloc (dom (heap st)) with
            | Some p => Done p (State (<[p := blk]> (heap st)) (entries st))
            | None => Fatal st
            end.

(** Modelled from the spec: [AllocSdsWithSpace] of sds_utils.cc, declared
    in sds_utils.h with two [uint32_t] arguments; an sds of length
    [strlen], its terminating NUL, and [space] more bytes. *)
Definition AllocSdsWithSpace (strlen space : Z) : M Z :=
  let strlen := Z.to_nat (to_uint32 strlen) in
  let space := Z.to_nat (to_uint32 space) in
  alloc (SdsBlock strlen (repeat 0 strlen ++ [0] ++ repeat 0 space)).

(** Modelled from the spec: [sdsnewlen] and [sdsfree] of the bundled
    redis/sds.c, which is not among the sources. *)
Definition sdsnewlen (init : list Z) : M Z :=
  alloc (SdsBlock (length init) (init ++ [0])).
Definition sdsfree (s : Z) : M unit :=
  if decide (s = 0) then ret tt
  else fun st => match heap st !! s with
                 | Some _ => Done tt (State (delete s (heap st)) (entries st))
                 | None => Undefined
                 end.

Definition GetValue (key : Z) : M Z :=
  len <- sdslen key ;;
  let from := (len + 1)%nat in
  Load64_at key from.

Definition Hash (obj : Z) (cookie : Z) : M Z :=
  CHECK_EQ cookie 0 ;;
  let key := obj in
  str <- sds_view key ;;
  ret (CompactObj.HashCode_of XXH3_64bits_withSeed str).

Definition ObjEqual (left right : Z) (right_cookie : Z) : M bool :=
  CHECK_EQ right_cookie 0 ;;
  let s1 := left in
  let s2 := right in
  l1 <- sdslen s1 ;;
  l2 <- sdslen s2 ;;
  if negb (l1 =? l2)%nat then ret false
  else
    v1 <- sds_view s1 ;;
    v2 <- sds_view s2 ;;
    (* memcmp(s1, s2, sdslen(s1)) == 0 *)
    ret (CompactObj.list_Z_eqb v1 v2).

Definition ObjDelete (obj : Z) (has_ttl : bool) : M unit :=
  let s1 := obj in
  value <- GetValue s1 ;;
  sdsfree value ;;
  sdsfree s1.

(** Modelled from the spec: [DenseSet::AddInternal] of dense_set.cc, which
    is not among the sources.  An object equal to one already in the set
    ([ObjEqual], cookie 0) is not inserted and the call returns false. *)
Fixpoint FindEqual (ptr : Z) (es : list Z) : M bool :=
  match es with
  | [] => ret false
  | e :: es' =>
      eq <- ObjEqual e ptr 0 ;;
      if eq then ret true else FindEqual ptr es'
  end.
Definition AddInternal (ptr : Z) (has_ttl : bool) : M bool :=
  fun st =>
    (found <- FindEqual ptr (entries st) ;;
     if found then ret false
     else fun st' => Done true (State (heap st') (ptr :: entries st'))) st.

Definition AddOrSet (field value : list Z) (ttl_sec : Z) : M bool :=
  CHECK_EQ ttl_sec UINT32_MAX ;;
  newkey <- AllocSdsWithSpace (Z.of_nat (length field)) 8 ;;
  (if negb (bool_decide (field = [])) then write_buf newkey 0 field
   else ret tt) ;;
  val <- sdsnewlen value ;;
  Store64_at newkey (length field + 1) val ;;
  let has_ttl := false in
  ok <- AddInternal newkey has_ttl ;;
  if negb ok then
    ObjDelete newkey has_ttl ;;
    (* LOG(FATAL) << "TBD:ORSET" *)
    fatal
  else ret true.

Definition Erase (field : list Z) : M bool := ret false.

End WithAllocator.

(** What the spec says of a stored entry: the key allocation holds the
    field, a NUL and the little-endian address [val]; the allocation at
    [val] holds the value. *)
Definition key_layout (h : gmap Z sds_block) (key : Z) (field : list Z)
    (val : Z) : Prop :=
  exists blk, h !! key = Some blk /\ sds_len blk = length field /\
              sds_buf blk = field ++ [0] ++ le_split 8 val.
Definition value_buffer (h : gmap Z sds_block) (val : Z) (value : list Z)
    : Prop :=
  exists blk, h !! val = Some blk /\ sds_len blk = length value /\
              sds_buf blk = value ++ [0].
Definition entry_ok (h : gmap Z sds_block) (key : Z) : Prop :=
  exists field val value,
    key_layout h key field val /\ value_buffer h val value /\
    val <> key /\ 0 < val < 2 ^ 64.
Definition layout_inv (st : state) : Prop :=
  forall key, In key (entries st) -> entry_ok (heap st) key.

(** The allocator hands out addresses that are free, non-null and fit a
    [uint64_t]. *)
Definition allocator_ok (zmalloc : gset Z -> option Z) : Prop :=
  forall used p, zmalloc used = Some p -> (p ∉ used) /\ 0 < p < 2 ^ 64.

(** An allocator for the examples: the first free address above 0. *)
Definition first_free (used : gset Z) : option Z :=
  let p := fresh ({[0]} ∪ used) in
  if decide (0 < p < 2 ^ 64) then Some p else None.

End StringMap.

(** * Proofs *)

(** ** Buffers *)

Lemma peek_app_r (pre mid : list Z) (i : nat) :
  peek (pre ++ mid) (length pre + i) = peek mid i.
Proof.
  unfold peek. rewrite lookup_app_r by lia.
  by replace (length pre + i - length pre)%nat with i by lia.
Qed.

Lemma peek_app_l (pre mid : list Z) (i : nat) :
  (i < length pre)%nat -> peek (pre ++ mid) i = peek pre i.
Proof. intros. unfold peek. by rewrite lookup_app_l. Qed.

Lemma peek_cons_0 (x : Z) (l : list Z) : peek (x :: l) 0 = x.
Proof. reflexivity. Qed.

Lemma peek_cons_S (x : Z) (l : list Z) (i : nat) : peek (x :: l) (S i) = peek l i.
Proof. reflexivity. Qed.

Lemma poke_app_r (pre mid : list Z) (i : nat) (v : Z) :
  poke (pre ++ mid) (length pre + i) v = pre ++ poke mid i v.
Proof. unfold poke. apply insert_app_r. Qed.

Lemma poke_length (m : list Z) (i : nat) (v : Z) : length (poke m i v) = length m.
Proof. apply length_insert. Qed.

Lemma store_bytes_length (bs m : list Z) (b : nat) :
  length (store_bytes m b bs) = length m.
Proof.
  revert m b. induction bs as [|x bs IH]; intros m b; simpl; [done|].
  by rewrite IH, poke_length.
Qed.

Lemma store_bytes_app_r (bs pre mid : list Z) (i : nat) :
  store_bytes (pre ++ mid) (length pre + i) bs = pre ++ store_bytes mid i bs.
Proof.
  revert mid i. induction bs as [|x bs IH]; intros mid i; simpl; [done|].
  rewrite poke_app_r. replace (S (length pre + i)) with (length pre + S i)%nat by lia.
  apply IH.
Qed.

(** Writing [bs] at the end of [pre] in [pre ++ mid]. *)
Lemma store_bytes_at (bs pre mid : list Z) (b : nat) :
  b = length pre -> (length bs <= length mid)%nat ->
  store_bytes (pre ++ mid) b bs = (pre ++ bs) ++ drop (length bs) mid.
Proof.
  intros ->. revert pre mid.
  induction bs as [|x bs IH]; intros pre mid Hlen; simpl.
  - by rewrite drop_0, app_nil_r.
  - destruct mid as [|y mid]; simpl in *; [lia|].
    replace (poke (pre ++ y :: mid) (length pre) x) with ((pre ++ [x]) ++ mid).
    + replace (S (length pre)) with (length (pre ++ [x]))
        by (rewrite length_app; simpl; lia).
      rewrite (IH (pre ++ [x]) mid) by lia.
      by rewrite <- !app_assoc.
    + unfold poke. rewrite insert_app_r_alt by lia.
      rewrite Nat.sub_diag. by rewrite <- app_assoc.
Qed.

Lemma load_bytes_length (m : list Z) (a n : nat) : length (load_bytes m a n) = n.
Proof. unfold load_bytes. by rewrite length_map, length_seq. Qed.

Lemma load_bytes_S (m : list Z) (a n : nat) :
  load_bytes m a (S n) = peek m a :: load_bytes m (S a) n.
Proof. reflexivity. Qed.

Lemma load_bytes_app_r (pre mid : list Z) (i n : nat) :
  load_bytes (pre ++ mid) (length pre + i) n = load_bytes mid i n.
Proof.
  revert i. induction n as [|n IH]; intros i; [done|].
  rewrite !load_bytes_S, peek_app_r. f_equal.
  replace (S (length pre + i)) with (length pre + S i)%nat by lia. apply IH.
Qed.

Lemma load_bytes_prefix (s rest : list Z) :
  load_bytes (s ++ rest) 0 (length s) = s.
Proof.
  induction s as [|x s IH]; [done|].
  simpl length. rewrite load_bytes_S. simpl. f_equal.
  etransitivity; [|exact IH].
  exact (load_bytes_app_r [x] (s ++ rest) 0 (length s)).
Qed.

(** Reading back the [s] of [pre ++ s ++ rest]. *)
Lemma load_bytes_at (pre s rest : list Z) (a n : nat) :
  a = length pre -> n = length s -> load_bytes (pre ++ s ++ rest) a n = s.
Proof.
  intros -> ->. replace (length pre) with (length pre + 0)%nat by lia.
  rewrite load_bytes_app_r. apply load_bytes_prefix.
Qed.

Lemma load_bytes_take_drop (m : list Z) (a n : nat) :
  (a + n <= length m)%nat -> load_bytes m a n = take n (drop a m).
Proof.
  intros H. rewrite <- (take_drop a m) at 1.
  rewrite <- (take_drop n (drop a m)) at 1.
  apply load_bytes_at; rewrite length_take, ?length_drop; lia.
Qed.

(** A buffer seen around one of its windows. *)
Lemma buffer_window (m : list Z) (a n : nat) :
  (a + n <= length m)%nat ->
  m = take a m ++ load_bytes m a n ++ drop (a + n) m.
Proof.
  intros H. rewrite load_bytes_take_drop by done.
  rewrite <- drop_drop, take_drop. by rewrite take_drop.
Qed.

(** ** Lists by groups of eight *)

Lemma chunk8_ind (P : list Z -> Prop) :
  (forall s, (length s < 8)%nat -> P s) ->
  (forall g s, length g = 8%nat -> P s -> P (g ++ s)) ->
  forall s, P s.
Proof.
  intros Hshort Hstep s.
  remember (length s) as n eqn:Hn. revert s Hn.
  induction n as [n IH] using lt_wf_ind. intros s Hn.
  destruct (Nat.lt_ge_cases (length s) 8) as [Hlt|Hge]; [by apply Hshort|].
  rewrite <- (take_drop 8 s). apply Hstep.
  - rewrite length_take. lia.
  - apply (IH (length (drop 8 s))); [rewrite length_drop; lia | done].
Qed.

Lemma list8_inv (g : list Z) :
  length g = 8%nat ->
  exists b0 b1 b2 b3 b4 b5 b6 b7, g = [b0; b1; b2; b3; b4; b5; b6; b7].
Proof.
  intros H.
  do 8 (destruct g as [|? g]; [discriminate H|]).
  destruct g; [|discriminate H]. by repeat eexists.
Qed.

Lemma pack_bytes_short (s : list Z) : (length s < 8)%nat -> pack_bytes s = s.
Proof.
  intros H. do 8 (destruct s as [|? s]; [reflexivity|]). simpl in H. lia.
Qed.

Lemma pack_bytes_app (g s : list Z) :
  length g = 8%nat -> pack_bytes (g ++ s) = pack8 g ++ pack_bytes s.
Proof.
  intros H. destruct (list8_inv g H) as (b0&b1&b2&b3&b4&b5&b6&b7&->). reflexivity.
Qed.

Lemma le_split_length (n : nat) (w : Z) : length (le_split n w) = n.
Proof. revert w. induction n as [|n IH]; intros w; simpl; [done|]. by rewrite IH. Qed.

Lemma pack8_length (g : list Z) : length (pack8 g) = 7%nat.
Proof. apply le_split_length. Qed.

Lemma binpacked_len_short (n : nat) : (n < 8)%nat -> binpacked_len n = n.
Proof.
  intros H. unfold binpacked_len.
  rewrite Nat.div_small, Nat.mod_small by done. lia.
Qed.

Lemma binpacked_len_step (n : nat) : binpacked_len (8 + n) = (7 + binpacked_len n)%nat.
Proof.
  unfold binpacked_len.
  replace (8 + n)%nat with (n + 1 * 8)%nat by lia.
  rewrite Nat.div_add, Nat.Div0.mod_add by lia. lia.
Qed.

Lemma pack_bytes_length (s : list Z) : length (pack_bytes s) = binpacked_len (length s).
Proof.
  induction s as [s Hs|g s Hg IH] using chunk8_ind.
  - by rewrite pack_bytes_short, binpacked_len_short.
  - rewrite pack_bytes_app, !length_app, pack8_length, Hg, IH by done.
    by rewrite binpacked_len_step.
Qed.

Lemma store_bytes_0 (bs mid : list Z) :
  (length bs <= length mid)%nat ->
  store_bytes mid 0 bs = bs ++ drop (length bs) mid.
Proof. intros H. by apply (store_bytes_at bs [] mid 0). Qed.

(** ** Bit-level facts *)

Lemma bits8_eq (x y : Z) :
  0 <= x < 2 ^ 8 -> 0 <= y < 2 ^ 8 ->
  (forall i, 0 <= i < 8 -> Z.testbit x i = Z.testbit y i) -> x = y.
Proof.
  intros Hx Hy H. apply Z.bits_inj'. intros n Hn.
  destruct (Z.ltb_spec n 8) as [Hlt|Hge]; [apply H; lia|].
  rewrite <- (Z.mod_small x (2 ^ 8)), <- (Z.mod_small y (2 ^ 8)) by lia.
  by rewrite !Z.mod_pow2_bits_high by lia.
Qed.

Lemma ascii_mod (b : Z) : is_ascii b -> b = b mod 2 ^ 7.
Proof. unfold is_ascii. intros. rewrite Z.mod_small; lia. Qed.

Lemma byte_mod (b : Z) : is_byte b -> b = b mod 2 ^ 8.
Proof. unfold is_byte. intros. rewrite Z.mod_small; lia. Qed.

Lemma mod7_byte (b : Z) : 0 <= b mod 2 ^ 7 < 2 ^ 8.
Proof. pose proof (Z.mod_pos_bound b (2 ^ 7)). lia. Qed.

Lemma mod8_byte (b : Z) : 0 <= b mod 2 ^ 8 < 2 ^ 8.
Proof. apply Z.mod_pos_bound. lia. Qed.

Lemma is_ascii_byte (b : Z) : is_ascii b -> is_byte b.
Proof. unfold is_ascii, is_byte. lia. Qed.

Lemma Forall_ascii_byte (s : list Z) : Forall is_ascii s -> Forall is_byte s.
Proof. intros H. eapply Forall_impl; [exact H | exact is_ascii_byte]. Qed.

Lemma mask7_testbit (k n : Z) :
  0 <= k -> k + 7 <= 64 -> 0 <= n ->
  Z.testbit (wrap64 (Z.shiftl 127 k)) n = (k <=? n) && (n <? k + 7).
Proof.
  intros Hk Hk' Hn. unfold wrap64. change 127 with (Z.ones 7).
  rewrite Z.testbit_mod_pow2 by lia.
  destruct (Z.leb_spec k n), (Z.ltb_spec n (k + 7)), (Z.ltb_spec n 64);
    simpl; try lia.
  all: rewrite ?Z.shiftl_spec_low by lia; try reflexivity.
  all: rewrite ?Z.shiftl_spec by lia.
  all: rewrite ?Z.ones_spec_low, ?Z.ones_spec_high by lia; reflexivity.
Qed.

(** Bit [n] of the packed word: bit [n + i] of the source word for the
    [i] with [7 i <= n < 7 i + 7], and bit 7 of the source as well. *)
Lemma pack_word_testbit (w n : Z) :
  0 <= n ->
  Z.testbit (pack_word w) n =
    Z.testbit w n && (n <? 8)
    || Z.testbit w (n + 1) && ((7 <=? n) && (n <? 14))
    || Z.testbit w (n + 2) && ((14 <=? n) && (n <? 21))
    || Z.testbit w (n + 3) && ((21 <=? n) && (n <? 28))
    || Z.testbit w (n + 4) && ((28 <=? n) && (n <? 35))
    || Z.testbit w (n + 5) && ((35 <=? n) && (n <? 42))
    || Z.testbit w (n + 6) && ((42 <=? n) && (n <? 49))
    || Z.testbit w (n + 7) && ((49 <=? n) && (n <? 56)).
Proof.
  intros Hn. unfold pack_word, pack_step, fold_left, snd.
  rewrite !Z.lor_spec, !Z.land_spec.
  rewrite !mask7_testbit by lia.
  rewrite !Z.shiftr_spec by lia.
  change 255 with (Z.ones 8). rewrite Z.testbit_ones_nonneg by lia.
  replace (n + 1 + 1) with (n + 2) by lia.
  replace (n + 2 + 1) with (n + 3) by lia.
  replace (n + 3 + 1) with (n + 4) by lia.
  replace (n + 4 + 1) with (n + 5) by lia.
  replace (n + 5 + 1) with (n + 6) by lia.
  replace (n + 6 + 1) with (n + 7) by lia.
  reflexivity.
Qed.

Lemma byte_testbit_high (b n : Z) :
  is_byte b -> 8 <= n -> Z.testbit b n = false.
Proof.
  intros Hb Hn. rewrite (byte_mod b Hb). apply Z.mod_pow2_bits_high. lia.
Qed.

Lemma ascii_testbit_7 (b : Z) : is_ascii b -> Z.testbit b 7 = false.
Proof.
  intros Hb. rewrite (ascii_mod b Hb). apply Z.mod_pow2_bits_high. lia.
Qed.

Lemma peek_Forall (P : Z -> Prop) (bs : list Z) (k : nat) :
  P 0 -> Forall P bs -> P (peek bs k).
Proof.
  intros H0 H. unfold peek. destruct (bs !! k) as [x|] eqn:E; simpl; [|done].
  eapply Forall_lookup_1; eauto.
Qed.

(** Bit [i] of byte [k] of a little-endian word. *)
Lemma le_combine_testbit (bs : list Z) (k : nat) (i : Z) :
  Forall is_byte bs -> 0 <= i < 8 ->
  Z.testbit (le_combine bs) (8 * Z.of_nat k + i) = Z.testbit (peek bs k) i.
Proof.
  intros Hbs Hi. revert k.
  induction Hbs as [|b bs Hb Hbs IH]; intros k.
  - simpl. rewrite Z.testbit_0_l. unfold peek. rewrite lookup_nil. simpl.
    by rewrite Z.testbit_0_l.
  - simpl le_combine. rewrite Z.lor_spec, Z.shiftl_spec by lia.
    destruct k as [|k].
    + rewrite peek_cons_0. replace (8 * Z.of_nat 0 + i) with i by lia.
      rewrite (Z.testbit_neg_r _ (i - 8)) by lia. apply orb_false_r.
    + rewrite peek_cons_S, byte_testbit_high by (done || lia). simpl.
      rewrite <- IH. f_equal. lia.
Qed.

Lemma le_combine_byte (bs : list Z) (k : nat) :
  Forall is_byte bs ->
  Z.shiftr (le_combine bs) (8 * Z.of_nat k) mod 2 ^ 8 = peek bs k.
Proof.
  intros Hbs. apply bits8_eq; [apply mod8_byte | |].
  - apply (peek_Forall is_byte); [unfold is_byte; lia | done].
  - intros i Hi. rewrite Z.testbit_mod_pow2, Z.shiftr_spec by lia.
    replace (i <? 8) with true by (symmetry; apply Z.ltb_lt; lia). simpl.
    rewrite Z.add_comm. by apply le_combine_testbit.
Qed.

Ltac list_eq :=
  repeat lazymatch goal with
  | |- _ :: _ = _ :: _ => apply (f_equal2 cons)
  | |- [] = [] => reflexivity
  end.

Ltac split_bit i Hi :=
  let Hc := fresh in
  assert (i = 0 \/ i = 1 \/ i = 2 \/ i = 3 \/ i = 4 \/ i = 5 \/ i = 6 \/ i = 7)
    as Hc by lia;
  clear Hi; repeat destruct Hc as [Hc|Hc]; subst i.

Ltac push_testbit :=
  repeat first
    [ rewrite Z.lor_spec | rewrite Z.land_spec
    | rewrite Z.shiftr_spec' | rewrite Z.shiftl_spec'
    | rewrite Z.testbit_mod_pow2 by lia
    | rewrite pack_word_testbit by lia ].

Ltac calc_bits :=
  cbv -[Z.testbit pack_word];
  repeat match goal with
         | |- context [Z.testbit ?x (Z.neg ?q)] =>
             rewrite (Z.testbit_neg_r x (Z.neg q)) by lia
         end.

Ltac case_bits :=
  repeat match goal with
         | |- context [Z.testbit ?x ?k] => destruct (Z.testbit x k)
         end;
  reflexivity.

(** Equality of two bytes, both written with [mod 2 ^ 7], [mod 2 ^ 8] and
    the bitwise operations over variables, bit by bit. *)
Ltac bits8_with tac :=
  let i := fresh "i" in
  let Hi := fresh "Hi" in
  apply bits8_eq; [first [apply mod8_byte | apply mod7_byte]..|];
  intros i Hi; split_bit i Hi;
  push_testbit; calc_bits; tac; try reflexivity; case_bits.

Ltac bits8 := bits8_with idtac.

Ltac asciify H b := rewrite (ascii_mod b H); clear H.

(** Closed shift amounts as numerals. *)
Ltac norm_shift :=
  repeat match goal with
         | |- context [Z.shiftr _ ?n] =>
             let v := eval vm_compute in n in progress change n with v
         end.
Ltac norm_shift_in H :=
  repeat match type of H with
         | context [Z.shiftr _ ?n] =>
             let v := eval vm_compute in n in progress change n with v in H
         end.

(** The seven bytes of a packed word, from the bytes of the source word
    pairwise, when the source bytes are ASCII. *)
Lemma pack_word_bytes (w : Z) :
  (forall k, 0 <= k < 8 -> Z.testbit w (8 * k + 7) = false) ->
  le_split 7 (pack_word w) =
  map (fun j => packed_byte (Z.shiftr w (8 * j) mod 2 ^ 8)
                            (Z.shiftr w (8 * (j + 1)) mod 2 ^ 8) j)
      [0; 1; 2; 3; 4; 5; 6].
Proof.
  intros Hw.
  pose proof (Hw 0 ltac:(lia)) as H0. pose proof (Hw 1 ltac:(lia)) as H1.
  pose proof (Hw 2 ltac:(lia)) as H2. pose proof (Hw 3 ltac:(lia)) as H3.
  pose proof (Hw 4 ltac:(lia)) as H4. pose proof (Hw 5 ltac:(lia)) as H5.
  pose proof (Hw 6 ltac:(lia)) as H6. pose proof (Hw 7 ltac:(lia)) as H7.
  cbv -[Z.testbit] in H0, H1, H2, H3, H4, H5, H6, H7. clear Hw.
  unfold le_split, packed_byte, int_to_byte, map.
  change 255 with (Z.ones 8). change 256 with (2 ^ 8).
  rewrite !Z.land_ones by lia.
  list_eq.
  all: bits8_with ltac:(rewrite ?H0, ?H1, ?H2, ?H3, ?H4, ?H5, ?H6, ?H7).
Qed.

Lemma pack8_ascii (b0 b1 b2 b3 b4 b5 b6 b7 : Z) :
  Forall is_ascii [b0; b1; b2; b3; b4; b5; b6; b7] ->
  pack8 [b0; b1; b2; b3; b4; b5; b6; b7] =
  [packed_byte b0 b1 0; packed_byte b1 b2 1; packed_byte b2 b3 2;
   packed_byte b3 b4 3; packed_byte b4 b5 4; packed_byte b5 b6 5;
   packed_byte b6 b7 6].
Proof.
  intros H. set (g := [b0; b1; b2; b3; b4; b5; b6; b7]) in *.
  assert (Hb : Forall is_byte g) by (by apply Forall_ascii_byte).
  unfold pack8. rewrite pack_word_bytes.
  - unfold map.
    pose proof (fun k => le_combine_byte g k Hb) as E.
    pose proof (E 0%nat) as E0. pose proof (E 1%nat) as E1.
    pose proof (E 2%nat) as E2. pose proof (E 3%nat) as E3.
    pose proof (E 4%nat) as E4. pose proof (E 5%nat) as E5.
    pose proof (E 6%nat) as E6. pose proof (E 7%nat) as E7.
    clear E. norm_shift. norm_shift_in E0. norm_shift_in E1. norm_shift_in E2.
    norm_shift_in E3. norm_shift_in E4. norm_shift_in E5. norm_shift_in E6.
    norm_shift_in E7.
    rewrite E0, E1, E2, E3, E4, E5, E6, E7. reflexivity.
  - intros k Hk. replace k with (Z.of_nat (Z.to_nat k)) by lia.
    rewrite le_combine_testbit by (done || lia).
    apply ascii_testbit_7.
    apply (peek_Forall is_ascii); [unfold is_ascii; lia | done].
Qed.

(** ** validate_ascii_fast *)

Lemma movemask64_0 (x : Z) : movemask64 x = 0 <-> lane_clear x.
Proof.
  unfold movemask64, msb_bit, lane_clear, fold_right. split.
  - intros H k Hk.
    assert (k = 0 \/ k = 1 \/ k = 2 \/ k = 3 \/ k = 4 \/ k = 5 \/ k = 6 \/ k = 7)
      as Hc by lia.
    repeat destruct Hc as [Hc|Hc]; subst k;
      match goal with
      | |- Z.testbit x ?n = false =>
          let v := eval vm_compute in n in change n with v
      end;
      match goal with
      | |- ?t = false => destruct t eqn:E; [exfalso|reflexivity]
      end;
      cbv -[Z.testbit Z.lor Z.shiftl] in H; rewrite E in H;
      repeat match type of H with
             | context [Z.testbit x ?n] => destruct (Z.testbit x n)
             end;
      discriminate H.
  - intros H.
    rewrite (H 0), (H 1), (H 2), (H 3), (H 4), (H 5), (H 6), (H 7) by lia.
    reflexivity.
Qed.

Lemma movemask_epi8_0 (v : m128i) :
  _mm_movemask_epi8 v = 0 <-> lane_clear (lane0 v) /\ lane_clear (lane1 v).
Proof.
  unfold _mm_movemask_epi8. rewrite Z.lor_eq_0_iff, Z.shiftl_eq_0_iff by lia.
  by rewrite !movemask64_0.
Qed.

Lemma lane_clear_lor (x y : Z) :
  lane_clear (Z.lor x y) <-> lane_clear x /\ lane_clear y.
Proof.
  unfold lane_clear. split.
  - intros H. split; intros k Hk; specialize (H k Hk);
      rewrite Z.lor_spec in H; apply orb_false_elim in H; tauto.
  - intros [Hx Hy] k Hk. by rewrite Z.lor_spec, Hx, Hy.
Qed.

Lemma lane_clear_0 : lane_clear 0.
Proof. intros k _. apply Z.testbit_0_l. Qed.

Lemma is_ascii_testbit (b : Z) : is_byte b -> is_ascii b <-> Z.testbit b 7 = false.
Proof.
  intros Hb. split; [apply ascii_testbit_7|].
  intros H. unfold is_byte, is_ascii in *.
  destruct (Z.lt_ge_cases b 128) as [|Hge]; [lia|]. exfalso.
  assert (Ht : Z.testbit b 7 = true); [|congruence].
  rewrite Z.testbit_true by lia. change (2 ^ 7) with 128.
  assert (b / 128 = 1) as ->
    by (symmetry; apply Z.div_unique with (b - 128); lia).
  reflexivity.
Qed.

Lemma load_bytes_is_byte (m : list Z) (a n : nat) :
  Forall is_byte m -> Forall is_byte (load_bytes m a n).
Proof.
  intros Hm. unfold load_bytes. apply Forall_map, Forall_forall. intros k _.
  apply (peek_Forall is_byte); [unfold is_byte; lia | done].
Qed.

Lemma lane_clear_le_combine (bs : list Z) :
  Forall is_byte bs -> length bs = 8%nat ->
  lane_clear (le_combine bs) <-> Forall is_ascii bs.
Proof.
  intros Hb Hlen. unfold lane_clear. split.
  - intros H. apply Forall_lookup_2. intros k x Hx.
    assert (Hk : (k < 8)%nat) by (rewrite <- Hlen; by eapply lookup_lt_Some).
    apply is_ascii_testbit; [by eapply Forall_lookup_1|].
    specialize (H (Z.of_nat k) ltac:(lia)).
    rewrite le_combine_testbit in H by (done || lia).
    unfold peek in H. by rewrite Hx in H.
  - intros H k Hk. replace k with (Z.of_nat (Z.to_nat k)) by lia.
    rewrite le_combine_testbit by (done || lia).
    apply ascii_testbit_7, (peek_Forall is_ascii); [unfold is_ascii; lia|done].
Qed.

Lemma load_bytes_add (m : list Z) (a n1 n2 : nat) :
  load_bytes m a (n1 + n2) = load_bytes m a n1 ++ load_bytes m (a + n1) n2.
Proof. unfold load_bytes. by rewrite seq_app, map_app. Qed.

Lemma loadu_clear (m : list Z) (a : nat) :
  Forall is_byte m ->
  lane_clear (lane0 (_mm_loadu_si128 m a)) /\
  lane_clear (lane1 (_mm_loadu_si128 m a)) <->
  Forall is_ascii (load_bytes m a 16).
Proof.
  intros Hm. unfold _mm_loadu_si128, Load64. cbn [lane0 lane1].
  rewrite !lane_clear_le_combine
    by (apply load_bytes_is_byte || apply load_bytes_length; done).
  change 16%nat with (8 + 8)%nat. rewrite load_bytes_add. by rewrite Forall_app.
Qed.

Lemma validate_blocks_spec (src : list Z) (len : nat) :
  Forall is_byte src ->
  forall (fuel i : nat) (acc : m128i),
    exists n,
      validate_blocks fuel src len i acc = ((i + n)%nat, 
        snd (validate_blocks fuel src len i acc)) /\
      ((16 <= len)%nat -> (i <= len)%nat -> (i + n <= len)%nat) /\
      (reg_clear (snd (validate_blocks fuel src len i acc)) <->
       reg_clear acc /\ Forall is_ascii (load_bytes src i n)).
Proof.
  intros Hsrc. induction fuel as [|fuel IH]; intros i acc.
  - exists 0%nat. simpl. rewrite Nat.add_0_r. split; [done|]. split; [lia|].
    unfold load_bytes. simpl. rewrite Forall_nil. tauto.
  - cbn [validate_blocks]. destruct (i <=? len - 16)%nat eqn:E.
    + destruct (IH (i + 16)%nat (_mm_or_si128 acc (_mm_loadu_si128 src i)))
        as (n & Heq & Hle & Hiff).
      exists (16 + n)%nat. rewrite Heq at 1. simpl snd.
      rewrite Nat.add_assoc. split; [done|]. split.
      * apply Nat.leb_le in E. intros. apply Hle; lia.
      * rewrite Hiff. unfold reg_clear at 1. unfold _mm_or_si128 at 1 2.
        cbn [lane0 lane1]. rewrite !lane_clear_lor.
        rewrite load_bytes_add, Forall_app, <- loadu_clear by done.
        unfold reg_clear. tauto.
    + exists 0%nat. simpl. rewrite Nat.add_0_r. split; [done|]. split; [lia|].
      unfold load_bytes. simpl. rewrite Forall_nil. tauto.
Qed.

Lemma char_to_int_testbit (cs : bool) (c i : Z) :
  is_byte c -> 0 <= i < 8 ->
  Z.testbit (char_to_int cs c) i = Z.testbit c i.
Proof.
  intros Hc Hi. unfold char_to_int.
  destruct (cs && (128 <=? c)); [|done].
  rewrite <- (Z.mod_pow2_bits_low (c - 256) 8 i) by lia.
  rewrite <- (Z.mod_pow2_bits_low c 8 i) by lia.
  f_equal. change (2 ^ 8) with 256.
  replace (c - 256) with (c + (-1) * 256) by lia. apply Z.mod_add. lia.
Qed.

Lemma char_to_int_ascii (cs : bool) (c : Z) :
  is_ascii c -> char_to_int cs c = c.
Proof.
  unfold is_ascii, char_to_int. intros H.
  replace (128 <=? c) with false by (symmetry; apply Z.leb_gt; lia).
  by rewrite andb_false_r.
Qed.

Lemma int_to_byte_is_byte (x : Z) : is_byte (int_to_byte x).
Proof. unfold is_byte, int_to_byte. apply Z.mod_pos_bound. lia. Qed.

(** [tail_has_error |= src[i]] on bit 7. *)
Lemma tail_or_testbit (cs : bool) (t c : Z) :
  is_byte t -> is_byte c ->
  Z.testbit (int_to_byte (Z.lor (char_to_int cs t) (char_to_int cs c))) 7 =
  Z.testbit t 7 || Z.testbit c 7.
Proof.
  intros Ht Hc. unfold int_to_byte. change 256 with (2 ^ 8).
  rewrite Z.mod_pow2_bits_low, Z.lor_spec by lia.
  by rewrite !char_to_int_testbit by (done || lia).
Qed.

Lemma land_128_0 (y : Z) : Z.land y 128 = 0 <-> Z.testbit y 7 = false.
Proof.
  split.
  - intros H. apply (f_equal (fun z => Z.testbit z 7)) in H.
    rewrite Z.land_spec, Z.testbit_0_l in H. change (Z.testbit 128 7) with true in H.
    by rewrite andb_true_r in H.
  - intros H. apply Z.bits_inj'. intros n Hn.
    rewrite Z.land_spec, Z.testbit_0_l. change 128 with (2 ^ 7).
    rewrite Z.pow2_bits_eqb by lia.
    destruct (Z.eqb_spec 7 n) as [<-|]; [by rewrite H | apply andb_false_r].
Qed.

Lemma validate_tail_spec (cs : bool) (src : list Z) (len : nat) :
  Forall is_byte src ->
  forall (fuel i : nat) (t : Z),
    is_byte t -> (len - i <= fuel)%nat ->
    is_byte (validate_tail cs fuel src len i t) /\
    (Z.testbit (validate_tail cs fuel src len i t) 7 = false <->
     Z.testbit t 7 = false /\ Forall is_ascii (load_bytes src i (len - i))).
Proof.
  intros Hsrc. induction fuel as [|fuel IH]; intros i t Ht Hf.
  - simpl. replace (len - i)%nat with 0%nat by lia.
    unfold load_bytes. simpl. rewrite Forall_nil. tauto.
  - cbn [validate_tail]. destruct (i <? len)%nat eqn:E.
    + apply Nat.ltb_lt in E.
      assert (Hc : is_byte (peek src i))
        by (apply (peek_Forall is_byte); [unfold is_byte; lia | done]).
      destruct (IH (S i) _ (int_to_byte_is_byte
                   (Z.lor (char_to_int cs t) (char_to_int cs (peek src i))))
                  ltac:(lia)) as [Hbyte Hiff].
      split; [done|]. rewrite Hiff, tail_or_testbit by done.
      replace (len - i)%nat with (S (len - S i)) by lia.
      rewrite load_bytes_S, Forall_cons, orb_false_iff.
      rewrite (is_ascii_testbit (peek src i) Hc). tauto.
    + apply Nat.ltb_ge in E. replace (len - i)%nat with 0%nat by lia.
      unfold load_bytes. simpl. rewrite Forall_nil. tauto.
Qed.

Lemma validate_ascii_fast_spec (cs : bool) (src : list Z) (len : nat) :
  Forall is_byte src ->
  validate_ascii_fast cs src len = true <->
  Forall is_ascii (load_bytes src 0 len).
Proof.
  intros Hsrc. unfold validate_ascii_fast.
  assert (Hblocks : exists n acc,
    (if (16 <=? len)%nat
     then validate_blocks len src len 0 _mm_setzero_si128
     else (0%nat, _mm_setzero_si128)) = (n, acc) /\ (n <= len)%nat /\
    (reg_clear acc <-> Forall is_ascii (load_bytes src 0 n))).
  { destruct (16 <=? len)%nat eqn:E.
    - apply Nat.leb_le in E.
      destruct (validate_blocks_spec src len Hsrc len 0%nat _mm_setzero_si128)
        as (n & Heq & Hle & Hiff).
      exists n, (snd (validate_blocks len src len 0 _mm_setzero_si128)).
      split; [exact Heq|]. split; [apply Hle; lia|].
      rewrite Hiff. unfold reg_clear, _mm_setzero_si128. simpl.
      pose proof lane_clear_0. tauto.
    - exists 0%nat, _mm_setzero_si128. split; [done|]. split; [lia|].
      unfold reg_clear, _mm_setzero_si128, load_bytes. simpl.
      pose proof lane_clear_0. rewrite Forall_nil. tauto. }
  destruct Hblocks as (n & acc & -> & Hn & Hacc).
  destruct (validate_tail_spec cs src len Hsrc len n 0
              ltac:(unfold is_byte; lia) ltac:(lia)) as [Hbyte Htail].
  rewrite Z.eqb_eq, Z.lor_eq_0_iff, movemask_epi8_0, land_128_0.
  rewrite char_to_int_testbit by (done || lia).
  fold (reg_clear acc). rewrite Hacc, Htail, Z.testbit_0_l.
  assert (load_bytes src 0 len =
          load_bytes src 0 n ++ load_bytes src n (len - n)) as ->
    by (rewrite <- load_bytes_add; f_equal; lia).
  rewrite Forall_app. tauto.
Qed.

Lemma Forall_load_bytes (P : Z -> Prop) (m : list Z) (a n : nat) :
  Forall P (load_bytes m a n) <-> forall i, (i < n)%nat -> P (peek m (a + i)).
Proof.
  unfold load_bytes. rewrite Forall_map, Forall_forall. split.
  - intros H i Hi. apply (H (a + i)%nat). apply elem_of_seq. lia.
  - intros H k Hk. apply elem_of_seq in Hk.
    replace k with (a + (k - a))%nat by lia. apply H. lia.
Qed.

Lemma peek_poke_eq (m : list Z) (i : nat) (v : Z) :
  (i < length m)%nat -> peek (poke m i v) i = v.
Proof. intros H. unfold peek, poke. by rewrite list_lookup_insert_eq. Qed.

Lemma peek_poke_ne (m : list Z) (i j : nat) (v : Z) :
  i <> j -> peek (poke m i v) j = peek m j.
Proof. intros H. unfold peek, poke. by rewrite list_lookup_insert_ne. Qed.

Lemma poke_is_byte (m : list Z) (i : nat) (v : Z) :
  is_byte v -> Forall is_byte m -> Forall is_byte (poke m i v).
Proof. intros Hv Hm. unfold poke. by apply Forall_insert. Qed.

Lemma flip_high_bit (b : Z) :
  is_byte b -> Z.land b 128 = 0 ->
  is_byte (Z.lxor b 128) /\ Z.land (Z.lxor b 128) 128 <> 0.
Proof.
  intros Hb H. apply land_128_0 in H. split.
  - unfold is_byte. rewrite (byte_mod b Hb). change 128 with (2 ^ 7).
    assert (Z.lxor (b mod 2 ^ 8) (2 ^ 7) = Z.lxor (b mod 2 ^ 8) (2 ^ 7) mod 2 ^ 8)
      as ->; [|apply Z.mod_pos_bound; lia].
    apply Z.bits_inj'. intros n Hn.
    rewrite !Z.testbit_mod_pow2, Z.lxor_spec, Z.testbit_mod_pow2,
      Z.pow2_bits_eqb by lia.
    destruct (Z.ltb_spec n 8); [by rewrite andb_true_l|].
    destruct (Z.eqb_spec 7 n); [lia|]. reflexivity.
  - rewrite land_128_0, Z.lxor_spec, H. change (Z.testbit 128 7) with true.
    discriminate.
Qed.

(** Decides [Forall P l] for a closed list [l] and [P] among [is_byte] and
    [is_ascii]. *)
Ltac forall_bytes :=
  match goal with
  | |- Forall ?P ?l => let v := eval vm_compute in l in change (Forall P v)
  end;
  repeat constructor; lia.

(** C4.  On a buffer of bytes, [validate_ascii_fast(src, len)] is true
    exactly when each of the first [len] bytes has bit 0x80 clear, whatever
    [len] is against the 16-byte block size; and from a buffer it accepts,
    flipping the high bit of any one of these bytes makes it return
    false. *)
Theorem validate_ascii_fast_correct (char_signed : bool) (src : list Z)
    (len : nat) :
  Forall is_byte src -> (len <= length src)%nat ->
  (validate_ascii_fast char_signed src len = true <->
   forall i, (i < len)%nat -> Z.land (peek src i) 128 = 0) /\
  (forall i, (i < len)%nat ->
     (forall j, (j < len)%nat -> Z.land (peek src j) 128 = 0) ->
     validate_ascii_fast char_signed
       (poke src i (Z.lxor (peek src i) 128)) len = false).
Proof.
  intros Hsrc Hlen.
  assert (Hspec : forall m, Forall is_byte m ->
            validate_ascii_fast char_signed m len = true <->
            forall i, (i < len)%nat -> Z.land (peek m i) 128 = 0).
  { intros m Hm. rewrite validate_ascii_fast_spec, Forall_load_bytes by done.
    split; intros H i Hi; specialize (H i Hi); simpl in *.
    - by apply land_128_0, ascii_testbit_7.
    - apply is_ascii_testbit; [|by apply land_128_0].
      apply (peek_Forall is_byte); [unfold is_byte; lia | done]. }
  split; [by apply Hspec|].
  intros i Hi Hall.
  assert (Hb : is_byte (peek src i))
    by (apply (peek_Forall is_byte); [unfold is_byte; lia | done]).
  destruct (flip_high_bit (peek src i) Hb (Hall i Hi)) as [Hfb Hset].
  apply not_true_is_false. intros Htrue.
  pose proof (poke_is_byte src i _ Hfb Hsrc) as Hpb.
  pose proof (proj1 (Hspec _ Hpb) Htrue i Hi) as Hclr.
  rewrite peek_poke_eq in Hclr by lia. done.
Qed.

Lemma validate_ascii_fast_correct_witness :
  validate_ascii_fast true (repeat 97 33) 33 = true /\
  validate_ascii_fast true
    (poke (repeat 97 33) 16 (Z.lxor (peek (repeat 97 33) 16) 128)) 33 = false.
Proof.
  assert (Hb : Forall is_byte (repeat 97 33))
    by forall_bytes.
  assert (Hl : (33 <= length (repeat 97 33))%nat) by (vm_compute; lia).
  destruct (validate_ascii_fast_correct true (repeat 97 33) 33 Hb Hl)
    as [Hiff Hflip].
  split.
  - reflexivity.
  - apply Hflip; [lia|]. apply Hiff. reflexivity.
Defined.

(** ** The scalar packer writes [pack_bytes] *)

Lemma pack_epilog_spec (s : list Z) :
  forall (fuel : nat) (spre srest pre mid : list Z) (a e b : nat),
    a = length spre -> e = (a + length s)%nat -> b = length pre ->
    (length s <= fuel)%nat -> (length s <= length mid)%nat ->
    pack_epilog fuel (spre ++ s ++ srest) a e (pre ++ mid) b =
    pre ++ s ++ drop (length s) mid.
Proof.
  induction s as [|x s IH]; intros fuel spre srest pre mid a e b Ha He Hb Hf Hm.
  - simpl in *. rewrite drop_0.
    destruct fuel as [|fuel]; simpl; [done|].
    replace (a <? e)%nat with false by (symmetry; apply Nat.ltb_ge; lia). done.
  - simpl length in *. destruct fuel as [|fuel]; [lia|]. cbn [pack_epilog].
    replace (a <? e)%nat with true by (symmetry; apply Nat.ltb_lt; lia).
    destruct mid as [|y mid]; simpl in Hm; [lia|].
    change (spre ++ (x :: s) ++ srest) with (spre ++ x :: s ++ srest).
    assert (E1 : spre ++ x :: s ++ srest = (spre ++ [x]) ++ s ++ srest)
      by (by rewrite <- app_assoc).
    assert (E2 : peek (spre ++ x :: s ++ srest) a = x).
    { subst a. replace (length spre) with (length spre + 0)%nat by lia.
      by rewrite peek_app_r. }
    assert (E3 : poke (pre ++ y :: mid) b x = (pre ++ [x]) ++ mid).
    { subst b. unfold poke. rewrite insert_app_r_alt by lia.
      rewrite Nat.sub_diag. by rewrite <- app_assoc. }
    rewrite E2, E3, E1.
    rewrite (IH fuel (spre ++ [x]) srest (pre ++ [x]) mid);
      rewrite ?length_app; simpl; try lia.
    by rewrite <- app_assoc.
Qed.

Lemma Load64_at (spre g srest : list Z) (a : nat) :
  a = length spre -> length g = 8%nat ->
  Load64 (spre ++ g ++ srest) a = le_combine g.
Proof. intros Ha Hg. unfold Load64. by rewrite load_bytes_at. Qed.

Lemma pack_loops_spec (s : list Z) :
  forall (fuel1 fuel2 : nat) (spre srest pre mid : list Z) (a e b : nat),
    a = length spre -> e = (a + length s)%nat -> b = length pre ->
    (length s <= fuel1)%nat -> (length s <= fuel2)%nat ->
    (length (pack_bytes s) <= length mid)%nat ->
    (let '(a', b', bin') :=
       pack_groups fuel1 (spre ++ s ++ srest) a e (pre ++ mid) b in
     pack_epilog fuel2 (spre ++ s ++ srest) a' e bin' b') =
    pre ++ pack_bytes s ++ drop (length (pack_bytes s)) mid.
Proof.
  induction s as [s Hs|g s Hg IH] using chunk8_ind;
    intros fuel1 fuel2 spre srest pre mid a e b Ha He Hb Hf1 Hf2 Hm.
  - rewrite pack_bytes_short in * by done.
    assert (pack_groups fuel1 (spre ++ s ++ srest) a e (pre ++ mid) b =
            (a, b, pre ++ mid)) as ->.
    { destruct fuel1 as [|fuel1]; cbn [pack_groups]; [done|].
      replace (a + 8 <=? e)%nat with false
        by (symmetry; apply Nat.leb_gt; lia). done. }
    by apply pack_epilog_spec.
  - rewrite pack_bytes_app in * by done.
    rewrite length_app, pack8_length in Hm. rewrite length_app, Hg in *.
    destruct fuel1 as [|fuel1]; [lia|]. cbn [pack_groups].
    replace (a + 8 <=? e)%nat with true by (symmetry; apply Nat.leb_le; lia).
    rewrite <- (app_assoc g s srest).
    rewrite (Load64_at spre g (s ++ srest) a) by done.
    fold (pack8 g).
    rewrite (store_bytes_at (pack8 g) pre mid b) by (rewrite ?pack8_length; lia).
    rewrite pack8_length.
    replace (spre ++ g ++ s ++ srest) with ((spre ++ g) ++ s ++ srest)
      by (by rewrite <- app_assoc).
    rewrite (IH fuel1 fuel2 (spre ++ g) srest (pre ++ pack8 g) (drop 7 mid));
      rewrite ?length_app, ?pack8_length, ?length_drop; try lia.
    by rewrite drop_drop, <- !app_assoc.
Qed.

(** [ascii_pack] leaves the bytes before [bin + b] and after the packed
    form as they were and writes [pack_bytes] of its input in between. *)
Lemma ascii_pack_spec (ascii bin : list Z) (a len b : nat) :
  (a + len <= length ascii)%nat ->
  (b + binpacked_len len <= length bin)%nat ->
  ascii_pack ascii a len bin b =
  take b bin ++ pack_bytes (load_bytes ascii a len)
    ++ drop (b + binpacked_len len) bin.
Proof.
  intros Ha Hb. unfold ascii_pack.
  pose proof (pack_loops_spec (load_bytes ascii a len) len len
                (take a ascii) (drop (a + len) ascii)
                (take b bin) (drop b bin) a (a + len) b) as H.
  rewrite <- (buffer_window ascii a len Ha), take_drop in H.
  rewrite H;
    rewrite ?length_take, ?length_drop, ?pack_bytes_length, ?load_bytes_length;
    try lia.
  by rewrite drop_drop.
Qed.

(** ** Unpacking what was packed *)

(** The eight bytes [ascii_unpack] derives from the seven packed bytes of
    a group, [p] being whatever the previous group left. *)
Lemma unpack_bits (p b0 b1 b2 b3 b4 b5 b6 b7 : Z) :
  is_byte p -> Forall is_ascii [b0; b1; b2; b3; b4; b5; b6; b7] ->
  let c0 := packed_byte b0 b1 0 in
  let c1 := packed_byte b1 b2 1 in
  let c2 := packed_byte b2 b3 2 in
  let c3 := packed_byte b3 b4 3 in
  let c4 := packed_byte b4 b5 4 in
  let c5 := packed_byte b5 b6 5 in
  let c6 := packed_byte b6 b7 6 in
  [ int_to_byte (Z.lor (Z.shiftr p (8 - 0)) (Z.land (Z.shiftl c0 0) 127));
    int_to_byte (Z.lor (Z.shiftr c0 (8 - 1)) (Z.land (Z.shiftl c1 1) 127));
    int_to_byte (Z.lor (Z.shiftr c1 (8 - 2)) (Z.land (Z.shiftl c2 2) 127));
    int_to_byte (Z.lor (Z.shiftr c2 (8 - 3)) (Z.land (Z.shiftl c3 3) 127));
    int_to_byte (Z.lor (Z.shiftr c3 (8 - 4)) (Z.land (Z.shiftl c4 4) 127));
    int_to_byte (Z.lor (Z.shiftr c4 (8 - 5)) (Z.land (Z.shiftl c5 5) 127));
    int_to_byte (Z.lor (Z.shiftr c5 (8 - 6)) (Z.land (Z.shiftl c6 6) 127));
    int_to_byte (Z.shiftr c6 1) ] =
  [b0; b1; b2; b3; b4; b5; b6; b7].
Proof.
  intros Hp H.
  repeat (apply Forall_cons_1 in H; destruct H as [?H H]).
  clear H. rewrite (byte_mod p Hp). clear Hp.
  asciify H0 b0. asciify H1 b1. asciify H2 b2. asciify H3 b3.
  asciify H4 b4. asciify H5 b5. asciify H6 b6. asciify H7 b7.
  cbv zeta. unfold packed_byte, int_to_byte.
  change 127 with (Z.ones 7). change 256 with (2 ^ 8).
  rewrite !Z.land_ones by lia.
  list_eq.
  all: bits8.
Qed.

Lemma packed_byte_is_byte (x y j : Z) : is_byte (packed_byte x y j).
Proof. unfold packed_byte, int_to_byte, is_byte. apply Z.mod_pos_bound. lia. Qed.

Lemma store_bytes_snoc (bs : list Z) (x : Z) (m : list Z) (b : nat) :
  store_bytes m b (bs ++ [x]) = poke (store_bytes m b bs) (b + length bs) x.
Proof.
  revert m b. induction bs as [|y bs IH]; intros m b; simpl.
  - by rewrite Nat.add_0_r.
  - rewrite IH. f_equal. lia.
Qed.

(** One group of [ascii_unpack] over the packed form of eight ASCII
    bytes. *)
Lemma unpack_group (g bpre brest out : list Z) (p : Z) (b o : nat) :
  is_byte p -> Forall is_ascii g -> length g = 8%nat -> b = length bpre ->
  exists p',
    is_byte p' /\
    (let '(p1, b1, o1, ascii1) :=
       fold_left (unpack_step (bpre ++ pack8 g ++ brest))
                 [0; 1; 2; 3; 4; 5; 6] (p, b, o, out) in
     (p1, b1, S o1, poke ascii1 o1 (int_to_byte (Z.shiftr p1 1)))) =
    (p', (b + 7)%nat, (o + 8)%nat, store_bytes out o g).
Proof.
  intros Hp Hg Hlen Hb.
  destruct (list8_inv g Hlen) as (b0&b1&b2&b3&b4&b5&b6&b7&->).
  pose proof (unpack_bits p b0 b1 b2 b3 b4 b5 b6 b7 Hp Hg) as Hbits.
  cbv zeta in Hbits.
  rewrite (pack8_ascii _ _ _ _ _ _ _ _ Hg).
  set (cs := [packed_byte b0 b1 0; packed_byte b1 b2 1; packed_byte b2 b3 2;
              packed_byte b3 b4 3; packed_byte b4 b5 4; packed_byte b5 b6 5;
              packed_byte b6 b7 6]).
  assert (Hload : load_bytes (bpre ++ cs ++ brest) b 7 = cs)
    by (by apply load_bytes_at).
  remember (bpre ++ cs ++ brest) as bin eqn:Hbin. clear Hbin.
  cbn [load_bytes seq map] in Hload. unfold cs in Hload.
  injection Hload as E0 E1 E2 E3 E4 E5 E6.
  exists (packed_byte b6 b7 6). split; [apply packed_byte_is_byte|].
  cbn [fold_left unpack_step].
  rewrite E0, E1, E2, E3, E4, E5, E6.
  injection Hbits as F0 F1 F2 F3 F4 F5 F6 F7.
  rewrite F0, F1, F2, F3, F4, F5, F6, F7.
  cbn [store_bytes].
  replace (b + 7)%nat with (S (S (S (S (S (S (S b))))))) by lia.
  replace (o + 8)%nat with (S (S (S (S (S (S (S (S o)))))))) by lia.
  reflexivity.
Qed.

Lemma unpack_tail_spec (s : list Z) :
  forall (fuel : nat) (bpre brest opre omid : list Z) (b i n o : nat),
    b = length bpre -> o = length opre -> n = (i + length s)%nat ->
    (length s <= fuel)%nat -> (length s <= length omid)%nat ->
    unpack_tail fuel (bpre ++ s ++ brest) b i n (opre ++ omid) o =
    opre ++ s ++ drop (length s) omid.
Proof.
  induction s as [|x s IH];
    intros fuel bpre brest opre omid b i n o Hb Ho Hn Hf Hm.
  - simpl in *. rewrite drop_0.
    destruct fuel as [|fuel]; simpl; [done|].
    replace (i <? n)%nat with false by (symmetry; apply Nat.ltb_ge; lia). done.
  - simpl length in *. destruct fuel as [|fuel]; [lia|]. cbn [unpack_tail].
    replace (i <? n)%nat with true by (symmetry; apply Nat.ltb_lt; lia).
    destruct omid as [|y mid]; simpl in Hm; [lia|].
    change (bpre ++ (x :: s) ++ brest) with (bpre ++ x :: s ++ brest).
    assert (E1 : bpre ++ x :: s ++ brest = (bpre ++ [x]) ++ s ++ brest)
      by (by rewrite <- app_assoc).
    assert (E2 : peek (bpre ++ x :: s ++ brest) b = x).
    { subst b. replace (length bpre) with (length bpre + 0)%nat by lia.
      by rewrite peek_app_r. }
    assert (E3 : poke (opre ++ y :: mid) o x = (opre ++ [x]) ++ mid).
    { subst o. unfold poke. rewrite insert_app_r_alt by lia.
      rewrite Nat.sub_diag. by rewrite <- app_assoc. }
    rewrite E2, E3, E1.
    rewrite (IH fuel (bpre ++ [x]) brest (opre ++ [x]) mid);
      rewrite ?length_app; simpl; try lia.
    by rewrite <- app_assoc.
Qed.

Lemma unpack_loops_spec (s : list Z) :
  forall (fuel1 fuel2 : nat) (p : Z) (bpre brest opre omid : list Z)
         (b o : nat),
    Forall is_ascii s -> is_byte p ->
    b = length bpre -> o = length opre ->
    (length s <= fuel1)%nat -> (length s <= fuel2)%nat ->
    (length s <= length omid)%nat ->
    (let '(b', len', ascii', o') :=
       unpack_groups fuel1 (bpre ++ pack_bytes s ++ brest) p b (length s)
                     (opre ++ omid) o in
     unpack_tail fuel2 (bpre ++ pack_bytes s ++ brest) b' 0 len' ascii' o') =
    opre ++ s ++ drop (length s) omid.
Proof.
  induction s as [s Hs|g s Hg IH] using chunk8_ind;
    intros fuel1 fuel2 p bpre brest opre omid b o Hascii Hp Hb Ho Hf1 Hf2 Hm.
  - rewrite pack_bytes_short by done.
    assert (unpack_groups fuel1 (bpre ++ s ++ brest) p b (length s)
              (opre ++ omid) o = (b, length s, opre ++ omid, o)) as ->.
    { destruct fuel1 as [|fuel1]; cbn [unpack_groups]; [done|].
      replace (8 <=? length s)%nat with false
        by (symmetry; apply Nat.leb_gt; lia). done. }
    apply unpack_tail_spec; (done || lia).
  - apply Forall_app in Hascii as [Hag Has].
    rewrite pack_bytes_app by done.
    rewrite length_app, Hg in *.
    destruct fuel1 as [|fuel1]; [lia|]. cbn [unpack_groups].
    replace (8 <=? 8 + length s)%nat with true
      by (symmetry; apply Nat.leb_le; lia).
    rewrite <- (app_assoc (pack8 g)).
    destruct (unpack_group g bpre (pack_bytes s ++ brest) (opre ++ omid) p b o
                Hp Hag Hg Hb) as (p' & Hp' & Hgroup).
    destruct (fold_left _ _ _) as [[[p1 b1] o1] ascii1].
    injection Hgroup as -> -> Ho1 ->.
    rewrite Ho1.
    rewrite (store_bytes_at g opre omid o) by (done || lia).
    replace (8 + length s - 8)%nat with (length s) by lia.
    replace (bpre ++ pack8 g ++ pack_bytes s ++ brest)
      with ((bpre ++ pack8 g) ++ pack_bytes s ++ brest)
      by (by rewrite <- app_assoc).
    rewrite Hg.
    rewrite (IH fuel1 fuel2 p' (bpre ++ pack8 g) brest (opre ++ g)
               (drop 8 omid));
      rewrite ?length_app, ?pack8_length, ?length_drop; try done; try lia.
    by rewrite drop_drop, <- !app_assoc.
Qed.

(** ** The round trip *)

(** C2.  Packing [len] ASCII bytes and unpacking the result with the same
    length gives the bytes back: the window of the destination that
    [ascii_unpack] writes equals the window of the source that
    [ascii_pack] read, for every length. *)
Theorem pack_unpack_roundtrip (ascii bin out : list Z) (a len b o : nat) :
  (a + len <= length ascii)%nat ->
  (b + binpacked_len len <= length bin)%nat ->
  (o + len <= length out)%nat ->
  Forall is_ascii (load_bytes ascii a len) ->
  load_bytes (ascii_unpack (ascii_pack ascii a len bin b) b len out o) o len =
  load_bytes ascii a len.
Proof.
  intros Ha Hb Ho Hascii.
  rewrite ascii_pack_spec by done.
  set (s := load_bytes ascii a len) in *.
  assert (Hs : length s = len) by apply load_bytes_length.
  unfold ascii_unpack.
  pose proof (unpack_loops_spec s len len 0 (take b bin)
                (drop (b + binpacked_len len) bin)
                (take o out) (drop o out) b o Hascii) as H.
  rewrite Hs, take_drop in H.
  rewrite H; rewrite ?length_take, ?length_drop; try lia;
    [|unfold is_byte; lia].
  apply load_bytes_at; rewrite ?length_take; lia.
Qed.

Lemma pack_unpack_roundtrip_witness :
  let s := bytes_of_string "key:0000000000000" in
  load_bytes (ascii_unpack (ascii_pack s 0 17 (repeat 0 15) 0) 0 17
                           (repeat 0 17) 0) 0 17 =
  load_bytes s 0 17.
Proof.
  intros s.
  apply (pack_unpack_roundtrip s (repeat 0 15) (repeat 0 17) 0 17 0 0).
  - vm_compute. lia.
  - vm_compute. lia.
  - vm_compute. lia.
  - forall_bytes.
Defined.

(** ** compare_packed *)

Lemma pack8_inj (g g' : list Z) :
  length g = 8%nat -> length g' = 8%nat ->
  Forall is_ascii g -> Forall is_ascii g' ->
  pack8 g = pack8 g' -> g = g'.
Proof.
  intros Hl Hl' Hg Hg' Heq.
  destruct (list8_inv g Hl) as (b0&b1&b2&b3&b4&b5&b6&b7&->).
  destruct (list8_inv g' Hl') as (d0&d1&d2&d3&d4&d5&d6&d7&->).
  rewrite (pack8_ascii _ _ _ _ _ _ _ _ Hg),
    (pack8_ascii _ _ _ _ _ _ _ _ Hg') in Heq.
  injection Heq as E0 E1 E2 E3 E4 E5 E6.
  pose proof (unpack_bits 0 b0 b1 b2 b3 b4 b5 b6 b7
                ltac:(unfold is_byte; lia) Hg) as Hb.
  pose proof (unpack_bits 0 d0 d1 d2 d3 d4 d5 d6 d7
                ltac:(unfold is_byte; lia) Hg') as Hd.
  cbv zeta in Hb, Hd.
  rewrite E0, E1, E2, E3, E4, E5, E6 in Hb. by rewrite <- Hb, <- Hd.
Qed.

Lemma list_Z_eqb_cons (x y : Z) (l l' : list Z) :
  bool_decide (x :: l = y :: l') = (x =? y) && bool_decide (l = l').
Proof.
  destruct (Z.eqb_spec x y) as [->|Hne]; simpl.
  - apply bool_decide_ext. split; [by intros [= ->] | by intros ->].
  - apply bool_decide_eq_false. by intros [= ? ?].
Qed.

(** The seven comparisons of one group against seven packed bytes. *)
Lemma compare_group (cs : bool) (g q apre arest bpre brest : list Z)
    (a p : nat) :
  Forall is_ascii g -> length g = 8%nat -> length q = 7%nat ->
  a = length apre -> p = length bpre ->
  fold_left (compare_step cs (bpre ++ q ++ brest) (apre ++ g ++ arest))
            [0; 1; 2; 3; 4; 5; 6] (true, a, p) =
  (bool_decide (pack8 g = q), (a + 7)%nat, (p + 7)%nat).
Proof.
  intros Hg Hlen Hq Ha Hp.
  destruct (list8_inv g Hlen) as (b0&b1&b2&b3&b4&b5&b6&b7&->).
  do 7 (destruct q as [|? q]; [discriminate Hq|]).
  destruct q; [|discriminate Hq].
  rewrite (pack8_ascii _ _ _ _ _ _ _ _ Hg).
  assert (Hla : load_bytes (apre ++ [b0; b1; b2; b3; b4; b5; b6; b7] ++ arest)
                  a 8 = [b0; b1; b2; b3; b4; b5; b6; b7])
    by (by apply load_bytes_at).
  assert (Hlp : load_bytes (bpre ++ [z; z0; z1; z2; z3; z4; z5] ++ brest)
                  p 7 = [z; z0; z1; z2; z3; z4; z5])
    by (by apply load_bytes_at).
  remember (apre ++ [b0; b1; b2; b3; b4; b5; b6; b7] ++ arest) as ascii
    eqn:Hascii. clear Hascii.
  remember (bpre ++ [z; z0; z1; z2; z3; z4; z5] ++ brest) as packed
    eqn:Hpacked. clear Hpacked.
  cbn [load_bytes seq map] in Hla, Hlp.
  injection Hla as A0 A1 A2 A3 A4 A5 A6 A7.
  injection Hlp as P0 P1 P2 P3 P4 P5 P6.
  repeat (apply Forall_cons_1 in Hg; destruct Hg as [?H Hg]).
  cbn [fold_left compare_step].
  replace (a + 1)%nat with (S a) by lia.
  replace (S a + 1)%nat with (S (S a)) by lia.
  replace (S (S a) + 1)%nat with (S (S (S a))) by lia.
  replace (S (S (S a)) + 1)%nat with (S (S (S (S a)))) by lia.
  replace (S (S (S (S a))) + 1)%nat with (S (S (S (S (S a))))) by lia.
  replace (S (S (S (S (S a)))) + 1)%nat with (S (S (S (S (S (S a)))))) by lia.
  replace (S (S (S (S (S (S a))))) + 1)%nat
    with (S (S (S (S (S (S (S a))))))) by lia.
  rewrite A0, A1, A2, A3, A4, A5, A6, A7, P0, P1, P2, P3, P4, P5, P6.
  rewrite !(char_to_int_ascii cs) by done.
  fold (packed_byte b0 b1 0). fold (packed_byte b1 b2 1).
  fold (packed_byte b2 b3 2). fold (packed_byte b3 b4 3).
  fold (packed_byte b4 b5 4). fold (packed_byte b5 b6 5).
  fold (packed_byte b6 b7 6).
  rewrite !list_Z_eqb_cons.
  rewrite (bool_decide_eq_true_2 ([] = [])) by done.
  rewrite andb_true_r, !andb_assoc.
  f_equal; [f_equal|]; lia.
Qed.

Lemma compare_tail_spec (cs : bool) (s' : list Z) :
  forall (s : list Z) (fuel : nat) (apre arest bpre brest : list Z)
         (a e p : nat),
    length s = length s' -> Forall is_ascii s' ->
    a = length apre -> p = length bpre -> e = (a + length s')%nat ->
    (length s' <= fuel)%nat ->
    compare_tail cs fuel (bpre ++ s ++ brest) (apre ++ s' ++ arest) a e p =
    bool_decide (s = s').
Proof.
  induction s' as [|x s' IH];
    intros s fuel apre arest bpre brest a e p Hlen Hascii Ha Hp He Hf.
  - destruct s; [|discriminate Hlen]. simpl in He.
    rewrite bool_decide_eq_true_2 by done.
    destruct fuel as [|fuel]; cbn [compare_tail]; [done|].
    replace (a <? e)%nat with false by (symmetry; apply Nat.ltb_ge; lia). done.
  - destruct s as [|y s]; [discriminate Hlen|].
    simpl length in *. destruct fuel as [|fuel]; [lia|]. cbn [compare_tail].
    replace (a <? e)%nat with true by (symmetry; apply Nat.ltb_lt; lia).
    apply Forall_cons_1 in Hascii as [Hx Hascii].
    change (apre ++ (x :: s') ++ arest) with (apre ++ x :: s' ++ arest).
    change (bpre ++ (y :: s) ++ brest) with (bpre ++ y :: s ++ brest).
    assert (E1 : peek (apre ++ x :: s' ++ arest) a = x).
    { subst a. replace (length apre) with (length apre + 0)%nat by lia.
      by rewrite peek_app_r. }
    assert (E2 : peek (bpre ++ y :: s ++ brest) p = y).
    { subst p. replace (length bpre) with (length bpre + 0)%nat by lia.
      by rewrite peek_app_r. }
    rewrite E1, E2, char_to_int_ascii by done.
    rewrite list_Z_eqb_cons, (Z.eqb_sym y x).
    destruct (x =? y); simpl; [|done].
    replace (apre ++ x :: s' ++ arest) with ((apre ++ [x]) ++ s' ++ arest)
      by (by rewrite <- app_assoc).
    replace (bpre ++ y :: s ++ brest) with ((bpre ++ [y]) ++ s ++ brest)
      by (by rewrite <- app_assoc).
    apply IH; rewrite ?length_app; simpl; try done; lia.
Qed.

Lemma compare_loops_spec (cs : bool) (s' : list Z) :
  forall (s : list Z) (fuel1 fuel2 : nat) (apre arest bpre brest : list Z)
         (a e p : nat),
    length s = length s' -> Forall is_ascii s -> Forall is_ascii s' ->
    a = length apre -> p = length bpre -> e = (a + length s')%nat ->
    (length s' <= fuel1)%nat -> (length s' <= fuel2)%nat ->
    match compare_groups cs fuel1 (bpre ++ pack_bytes s ++ brest)
            (apre ++ s' ++ arest) true a e p with
    | inl r => r
    | inr (a', p') =>
        compare_tail cs fuel2 (bpre ++ pack_bytes s ++ brest)
          (apre ++ s' ++ arest) a' e p'
    end = bool_decide (s = s').
Proof.
  induction s' as [s' Hs'|g' s' Hg' IH] using chunk8_ind;
    intros s fuel1 fuel2 apre arest bpre brest a e p Hlen Has Has' Ha Hp He
           Hf1 Hf2.
  - rewrite pack_bytes_short by lia.
    assert (compare_groups cs fuel1 (bpre ++ s ++ brest) (apre ++ s' ++ arest)
              true a e p = inr (a, p)) as ->.
    { destruct fuel1 as [|fuel1]; cbn [compare_groups]; [done|].
      replace (a + 8 <=? e)%nat with false
        by (symmetry; apply Nat.leb_gt; lia). done. }
    by apply compare_tail_spec.
  - rewrite length_app, Hg' in *.
    assert (Hsplit : s = take 8 s ++ drop 8 s) by (by rewrite take_drop).
    assert (Hg : length (take 8 s) = 8%nat) by (rewrite length_take; lia).
    assert (Ht : length (drop 8 s) = length s') by (rewrite length_drop; lia).
    revert Hsplit Hg Ht. generalize (take 8 s) (drop 8 s). intros g t -> Hg Ht.
    clear Hlen.
    apply Forall_app in Has as [Hag Hat].
    apply Forall_app in Has' as [Hag' Hat'].
    rewrite pack_bytes_app by done.
    destruct fuel1 as [|fuel1]; [lia|]. cbn [compare_groups].
    replace (a + 8 <=? e)%nat with true by (symmetry; apply Nat.leb_le; lia).
    rewrite <- (app_assoc (pack8 g)), <- (app_assoc g').
    rewrite (compare_group cs g' (pack8 g) apre (s' ++ arest) bpre
               (pack_bytes t ++ brest) a p)
      by (done || apply pack8_length).
    destruct (decide (pack8 g' = pack8 g)) as [Heq|Hne].
    + rewrite bool_decide_eq_true_2 by done. cbn [negb].
      apply pack8_inj in Heq; try done. subst g'.
      replace (bpre ++ pack8 g ++ pack_bytes t ++ brest)
        with ((bpre ++ pack8 g) ++ pack_bytes t ++ brest)
        by (by rewrite <- app_assoc).
      replace (apre ++ g ++ s' ++ arest) with ((apre ++ g) ++ s' ++ arest)
        by (by rewrite <- app_assoc).
      rewrite (IH t fuel1 fuel2 (apre ++ g) arest (bpre ++ pack8 g) brest);
        rewrite ?length_app, ?pack8_length; try done; try lia.
      apply bool_decide_ext. split; [by intros -> | by intros ?%app_inv_head].
    + rewrite bool_decide_eq_false_2 by done. cbn [negb].
      symmetry. apply bool_decide_eq_false_2.
      intros Heq. apply app_inj_1 in Heq as [-> _]; [done | lia].
Qed.

Lemma compare_packed_spec (cs : bool) (s s' apre arest bpre brest : list Z)
    (a p : nat) :
  length s = length s' -> Forall is_ascii s -> Forall is_ascii s' ->
  a = length apre -> p = length bpre ->
  compare_packed cs (bpre ++ pack_bytes s ++ brest) p
                 (apre ++ s' ++ arest) a (length s') =
  bool_decide (s = s').
Proof.
  intros. unfold compare_packed. by apply compare_loops_spec.
Qed.

Lemma load_bytes_poke (m : list Z) (a n i : nat) (v : Z) :
  (a + n <= length m)%nat -> (i < n)%nat ->
  load_bytes (poke m (a + i) v) a n = <[i := v]> (load_bytes m a n).
Proof.
  intros Hlen Hi. apply list_eq. intros k.
  destruct (decide (k < n)%nat) as [Hk|Hk].
  2:{ rewrite !lookup_ge_None_2;
        rewrite ?length_insert, ?load_bytes_length; (done || lia). }
  unfold load_bytes at 1. rewrite list_lookup_fmap, lookup_seq_lt by done.
  simpl. destruct (decide (i = k)) as [->|Hne].
  - rewrite peek_poke_eq by lia.
    by rewrite list_lookup_insert_eq by (rewrite load_bytes_length; lia).
  - rewrite peek_poke_ne by lia. rewrite list_lookup_insert_ne by done.
    unfold load_bytes. by rewrite list_lookup_fmap, lookup_seq_lt by done.
Qed.

(** C3.  [compare_packed] accepts the packed form of an ASCII string
    against the string itself, and rejects it against every ASCII string
    that differs from it in exactly one byte. *)
Theorem compare_packed_correct (char_signed : bool) (ascii bin : list Z)
    (a len b : nat) :
  (a + len <= length ascii)%nat ->
  (b + binpacked_len len <= length bin)%nat ->
  Forall is_ascii (load_bytes ascii a len) ->
  let packed := ascii_pack ascii a len bin b in
  compare_packed char_signed packed b ascii a len = true /\
  (forall i c, (i < len)%nat -> is_ascii c -> c <> peek ascii (a + i) ->
     compare_packed char_signed packed b (poke ascii (a + i) c) a len = false).
Proof.
  intros Ha Hb Hascii packed. unfold packed. clear packed.
  rewrite ascii_pack_spec by done.
  set (s := load_bytes ascii a len) in *.
  assert (Hs : length s = len) by apply load_bytes_length.
  assert (Hcmp : forall m, length m = length ascii ->
            Forall is_ascii (load_bytes m a len) ->
            compare_packed char_signed
              (take b bin ++ pack_bytes s ++ drop (b + binpacked_len len) bin)
              b m a len = bool_decide (s = load_bytes m a len)).
  { intros m Hm Hma.
    pose proof (compare_packed_spec char_signed s (load_bytes m a len)
                  (take a m) (drop (a + len) m) (take b bin)
                  (drop (b + binpacked_len len) bin) a b) as H.
    rewrite load_bytes_length in H.
    rewrite <- (buffer_window m a len) in H by lia.
    apply H; rewrite ?length_take; (done || lia). }
  split.
  - rewrite Hcmp by done. by apply bool_decide_eq_true_2.
  - intros i c Hi Hc Hne.
    assert (Hm : load_bytes (poke ascii (a + i) c) a len = <[i := c]> s)
      by (by apply load_bytes_poke).
    rewrite Hcmp; rewrite ?poke_length, ?Hm; try done.
    + apply bool_decide_eq_false_2. intros Heq.
      apply (f_equal (fun l => l !! i)) in Heq.
      rewrite list_lookup_insert_eq in Heq by lia.
      unfold s, load_bytes in Heq.
      rewrite list_lookup_fmap, lookup_seq_lt in Heq by done.
      simpl in Heq. congruence.
    + by apply Forall_insert.
Qed.

Lemma compare_packed_correct_witness :
  let s := bytes_of_string "key:0000000000000" in
  let packed := ascii_pack s 0 17 (repeat 0 15) 0 in
  compare_packed true packed 0 s 0 17 = true /\
  compare_packed true packed 0 (poke s (0 + 9) 49) 0 17 = false.
Proof.
  intros s packed.
  assert (H1 : (0 + 17 <= length s)%nat) by (vm_compute; lia).
  assert (H2 : (0 + binpacked_len 17 <= length (repeat 0 15))%nat)
    by (vm_compute; lia).
  assert (H3 : Forall is_ascii (load_bytes s 0 17)) by forall_bytes.
  destruct (compare_packed_correct true s (repeat 0 15) 0 17 0 H1 H2 H3)
    as [Hsame Hdiff].
  split; [exact Hsame|].
  apply Hdiff; [lia | unfold is_ascii; lia | vm_compute; discriminate].
Defined.

(** ** StringMap *)

Lemma le_combine_le_split (n : nat) (w : Z) :
  le_combine (le_split n w) = w mod 2 ^ (8 * Z.of_nat n).
Proof.
  revert w. induction n as [|n IH]; intros w.
  - simpl. by rewrite Z.mod_1_r.
  - cbn [le_split le_combine]. rewrite IH.
    change 255 with (Z.ones 8). rewrite Z.land_ones by lia.
    apply Z.bits_inj'. intros i Hi.
    rewrite Z.lor_spec, Z.shiftl_spec, !Z.testbit_mod_pow2 by lia.
    destruct (Z.ltb_spec i 8).
    + rewrite (Z.testbit_neg_r _ (i - 8)) by lia.
      replace (i <? 8 * Z.of_nat (S n)) with true
        by (symmetry; apply Z.ltb_lt; lia).
      by rewrite andb_false_r, orb_false_r.
    + rewrite Z.shiftr_spec by lia. replace (i - 8 + 8) with i by lia.
      simpl. f_equal. apply eq_true_iff_eq.
      rewrite !Z.ltb_lt. lia.
Qed.

Lemma Load64_le_split (pre post : list Z) (off : nat) (w : Z) :
  off = length pre -> 0 <= w < 2 ^ 64 ->
  Load64 (pre ++ le_split 8 w ++ post) off = w.
Proof.
  intros Hoff Hw. unfold Load64.
  rewrite load_bytes_at by (done || by rewrite le_split_length).
  rewrite le_combine_le_split. apply Z.mod_small. exact Hw.
Qed.

Import StringMap.
Local Open Scope sm_scope.

Lemma state_eta (st : state) : State (heap st) (entries st) = st.
Proof. by destruct st. Qed.

Ltac run := unfold bind, ret, fatal, undefined, CHECK_EQ in *; simpl in *.

(** *** sds accessors on a laid-out key *)

Lemma sdslen_layout (st : state) (key : Z) (field : list Z) (val : Z) :
  key_layout (heap st) key field val ->
  sdslen key st = Done (length field) st.
Proof.
  intros (blk & Hblk & Hlen & _). unfold sdslen, bind, read_block, ret.
  by rewrite Hblk, Hlen.
Qed.

Lemma sds_view_layout (st : state) (key : Z) (field : list Z) (val : Z) :
  key_layout (heap st) key field val ->
  sds_view key st = Done field st.
Proof.
  intros (blk & Hblk & Hlen & Hbuf). unfold sds_view, bind, read_block, ret.
  rewrite Hblk, Hlen, Hbuf.
  rewrite decide_True by (rewrite length_app; lia).
  by rewrite take_app_length.
Qed.

Lemma GetValue_layout (st : state) (key : Z) (field : list Z) (val : Z) :
  key_layout (heap st) key field val -> 0 <= val < 2 ^ 64 ->
  GetValue key st = Done val st.
Proof.
  intros Hlay Hval. unfold GetValue, bind.
  rewrite (sdslen_layout st key field val Hlay).
  destruct Hlay as (blk & Hblk & Hlen & Hbuf).
  unfold Load64_at, bind, read_block, ret. rewrite Hblk, Hbuf.
  rewrite decide_True
    by (rewrite !length_app, le_split_length; simpl; lia).
  f_equal.
  replace (field ++ [0] ++ le_split 8 val)
    with ((field ++ [0]) ++ le_split 8 val ++ [])
    by (by rewrite app_nil_r, <- app_assoc).
  apply Load64_le_split; [rewrite length_app; simpl; lia | done].
Qed.

(** C7.  For two keys laid out with the same field bytes, whatever their
    value pointers, [Hash] with cookie 0 returns for both the content hash
    of the field and [ObjEqual] with cookie 0 returns true; any other
    cookie is fatal for both functions. *)
Theorem Hash_ObjEqual_field_only (XXH3 : list Z -> Z -> Z) (st : state)
    (k1 k2 : Z) (field : list Z) (v1 v2 : Z) :
  key_layout (heap st) k1 field v1 ->
  key_layout (heap st) k2 field v2 ->
  Hash XXH3 k1 0 st = Done (CompactObj.HashCode_of XXH3 field) st /\
  Hash XXH3 k2 0 st = Hash XXH3 k1 0 st /\
  ObjEqual k1 k2 0 st = Done true st /\
  (forall cookie, cookie <> 0 ->
     Hash XXH3 k1 cookie st = Fatal st /\
     ObjEqual k1 k2 cookie st = Fatal st).
Proof.
  intros H1 H2.
  assert (Hh : forall k v, key_layout (heap st) k field v ->
            Hash XXH3 k 0 st = Done (CompactObj.HashCode_of XXH3 field) st).
  { intros k v Hk. unfold Hash, bind, CHECK_EQ. simpl.
    unfold ret at 1. by rewrite (sds_view_layout st k field v Hk). }
  repeat split.
  - by eapply Hh.
  - rewrite (Hh k1 v1 H1). by eapply Hh.
  - unfold ObjEqual, bind, CHECK_EQ. simpl. unfold ret at 1.
    rewrite (sdslen_layout st k1 field v1 H1).
    rewrite (sdslen_layout st k2 field v2 H2).
    rewrite Nat.eqb_refl. simpl.
    rewrite (sds_view_layout st k1 field v1 H1).
    rewrite (sds_view_layout st k2 field v2 H2).
    unfold ret, CompactObj.list_Z_eqb. by rewrite bool_decide_eq_true_2.
  - unfold Hash, bind, CHECK_EQ. by rewrite decide_False.
  - unfold ObjEqual, bind, CHECK_EQ. by rewrite decide_False.
Qed.

(** C9.  [Erase] returns false and leaves the heap and the set as they
    were, for every field and every state; an entry that holds the field
    is still stored, with the same layout, after the call. *)
Theorem Erase_reports_not_found (field : list Z) (st : state) :
  Erase field st = Done false st /\
  (forall key val,
     In key (entries st) -> key_layout (heap st) key field val ->
     exists st', Erase field st = Done false st' /\
                 heap st' = heap st /\ entries st' = entries st /\
                 In key (entries st') /\
                 key_layout (heap st') key field val).
Proof.
  assert (Hrun : Erase field st = Done false st) by reflexivity.
  split; [exact Hrun|].
  intros key val Hin Hlay. exists st. by repeat split.
Qed.

Lemma Erase_reports_not_found_witness :
  let field := bytes_of_string "ab" in
  let st := State (<[1 := SdsBlock 2 (field ++ [0] ++ le_split 8 2)]>
                  (<[2 := SdsBlock 3 (bytes_of_string "xyz" ++ [0])]> ∅))
                  [1] in
  exists st', Erase field st = Done false st' /\
              heap st' = heap st /\ entries st' = entries st /\
              In 1 (entries st') /\ key_layout (heap st') 1 field 2.
Proof.
  intros field st.
  destruct (Erase_reports_not_found field st) as [_ Hpresent].
  apply (Hpresent 1 2).
  - by left.
  - eexists. split; [vm_compute; reflexivity|]. split; reflexivity.
Defined.

Lemma sdsfree_allocated (st : state) (s : Z) (blk : sds_block) :
  s <> 0 -> heap st !! s = Some blk ->
  sdsfree s st = Done tt (State (delete s (heap st)) (entries st)).
Proof.
  intros Hs Hblk. unfold sdsfree. rewrite decide_False by done.
  by rewrite Hblk.
Qed.

(** [ObjDelete] on a key laid out as an entry. *)
Lemma ObjDelete_run (st : state) (obj : Z) (has_ttl : bool) (field : list Z)
    (val : Z) (vblk : sds_block) :
  key_layout (heap st) obj field val ->
  heap st !! val = Some vblk ->
  obj <> 0 -> val <> obj -> 0 < val < 2 ^ 64 ->
  ObjDelete obj has_ttl st =
  Done tt (State (delete obj (delete val (heap st))) (entries st)).
Proof.
  intros Hlay Hval Hobj Hne Hrange.
  unfold ObjDelete, bind.
  rewrite (GetValue_layout st obj field val Hlay) by lia.
  rewrite (sdsfree_allocated st val vblk) by (done || lia).
  destruct Hlay as (blk & Hblk & _).
  erewrite sdsfree_allocated; [reflexivity | done |].
  simpl. rewrite lookup_delete_ne by done. exact Hblk.
Qed.

(** C10.  [ObjDelete] does the same whatever [has_ttl] is; on a key laid
    out as an entry it frees the value buffer its trailing 8 bytes point
    to and then the key buffer, and nothing else. *)
Theorem ObjDelete_ignores_has_ttl (st : state) (obj : Z) :
  ObjDelete obj true st = ObjDelete obj false st /\
  (forall (has_ttl : bool) (field : list Z) (val : Z) (vblk : sds_block),
     key_layout (heap st) obj field val ->
     heap st !! val = Some vblk ->
     obj <> 0 -> val <> obj -> 0 < val < 2 ^ 64 ->
     ObjDelete obj has_ttl st =
     Done tt (State (delete obj (delete val (heap st))) (entries st))).
Proof.
  split; [reflexivity|]. intros. by eapply ObjDelete_run.
Qed.

(** *** Running [AddOrSet] *)

Lemma alloc_run (zmalloc : gset Z -> option Z) (blk : sds_block)
    (st : state) (p : Z) :
  zmalloc (dom (heap st)) = Some p ->
  alloc zmalloc blk st = Done p (State (<[p := blk]> (heap st)) (entries st)).
Proof. intros H. unfold alloc. by rewrite H. Qed.

Lemma write_buf_run (s : Z) (off : nat) (bs : list Z) (st : state)
    (blk : sds_block) :
  heap st !! s = Some blk ->
  (off + length bs <= length (sds_buf blk))%nat ->
  write_buf s off bs st =
  Done tt (State (<[s := SdsBlock (sds_len blk)
                         (store_bytes (sds_buf blk) off bs)]> (heap st))
                 (entries st)).
Proof. intros H Hlen. unfold write_buf. by rewrite H, decide_True. Qed.

Lemma to_uint32_small (n : nat) :
  Z.of_nat n < 2 ^ 32 -> Z.to_nat (to_uint32 (Z.of_nat n)) = n.
Proof. intros H. unfold to_uint32. rewrite Z.mod_small by lia. lia. Qed.

Lemma length_repeat_Z (x : Z) (n : nat) : length (repeat x n) = n.
Proof. apply repeat_length. Qed.

Lemma store_field (field : list Z) :
  store_bytes (repeat 0 (length field) ++ [0] ++ repeat 0 8) 0 field =
  field ++ [0] ++ repeat 0 8.
Proof.
  rewrite store_bytes_0 by (rewrite ?length_app, ?length_repeat_Z; simpl; lia).
  f_equal. rewrite drop_app_length'; [done | by rewrite length_repeat_Z].
Qed.

Lemma store_pointer (field : list Z) (w : Z) :
  store_bytes (field ++ [0] ++ repeat 0 8) (length field + 1) (le_split 8 w) =
  field ++ [0] ++ le_split 8 w.
Proof.
  replace (field ++ [0] ++ repeat 0 8) with ((field ++ [0]) ++ repeat 0 8)
    by (by rewrite <- app_assoc).
  rewrite store_bytes_at
    by (rewrite ?length_app, ?le_split_length; simpl; lia).
  rewrite le_split_length. simpl drop. by rewrite app_nil_r, <- app_assoc.
Qed.

(** [AddOrSet] up to the call of [AddInternal]: the checks and the two
    allocations, then the rest of the body in the state with the new key
    and value buffers. *)
Lemma AddOrSet_outcome (zmalloc : gset Z -> option Z)
    (field value : list Z) (ttl_sec : Z) (st : state) :
  allocator_ok zmalloc ->
  AddOrSet zmalloc field value ttl_sec st =
  if decide (ttl_sec = UINT32_MAX) then
    match zmalloc (dom (heap st)) with
    | None => Fatal st
    | Some p1 =>
        if decide (Z.of_nat (length field) < 2 ^ 32) then
          match zmalloc ({[p1]} ∪ dom (heap st)) with
          | None =>
              Fatal (State (<[p1 := SdsBlock (length field)
                                      (field ++ [0] ++ repeat 0 8)]> (heap st))
                           (entries st))
          | Some p2 =>
              (ok <- AddInternal p1 false ;;
               if negb ok then ObjDelete p1 false ;; fatal else ret true)
                (State (<[p1 := SdsBlock (length field)
                                  (field ++ [0] ++ le_split 8 p2)]>
                          (<[p2 := SdsBlock (length value) (value ++ [0])]>
                             (heap st)))
                       (entries st))
          end
        else Undefined
    end
  else Fatal st.
Proof.
  intros Hok.
  unfold AddOrSet. unfold bind at 1. unfold CHECK_EQ.
  destruct (decide (ttl_sec = UINT32_MAX)) as [_|_]; [|reflexivity].
  unfold ret at 1. unfold bind at 1. unfold AllocSdsWithSpace, alloc at 1.
  destruct (zmalloc (dom (heap st))) as [p1|] eqn:Hp1; [|reflexivity].
  change (Z.to_nat (to_uint32 8)) with 8%nat.
  destruct (decide (Z.of_nat (length field) < 2 ^ 32)) as [Hlen|Hlen].
  - rewrite to_uint32_small by done.
    set (st1 := State (<[p1 := SdsBlock (length field)
                              (repeat 0 (length field) ++ [0] ++ repeat 0 8)]>
                         (heap st)) (entries st)).
    assert (Hst2 :
      (if negb (bool_decide (field = [])) then write_buf p1 0 field
       else ret tt) st1 =
      Done tt (State (<[p1 := SdsBlock (length field)
                                (field ++ [0] ++ repeat 0 8)]> (heap st))
                     (entries st))).
    { destruct (decide (field = [])) as [->|Hf].
      - rewrite bool_decide_eq_true_2 by done. reflexivity.
      - rewrite bool_decide_eq_false_2 by done. cbn [negb].
        erewrite write_buf_run;
          [| unfold st1; simpl; apply lookup_insert_eq
           | cbn [sds_buf];
             rewrite ?length_app, ?length_repeat_Z; simpl; lia ].
        unfold st1. simpl. rewrite insert_insert_eq.
        by rewrite store_field. }
    unfold bind at 1. rewrite Hst2.
    unfold bind at 1. unfold sdsnewlen, alloc at 1.
    cbn [heap entries]. rewrite dom_insert_L.
    destruct (zmalloc ({[p1]} ∪ dom (heap st))) as [p2|] eqn:Hp2;
      [|reflexivity].
    assert (Hne : p1 <> p2).
    { destruct (Hok _ _ Hp2) as [Hfresh _]. set_solver. }
    unfold bind at 1. unfold Store64_at.
    erewrite write_buf_run;
      [| simpl; rewrite lookup_insert_ne by done; apply lookup_insert_eq
       | cbn [sds_buf]; rewrite ?length_app, ?length_repeat_Z; simpl; lia ].
    simpl heap. simpl entries. simpl sds_len. simpl sds_buf.
    rewrite store_pointer.
    rewrite (insert_insert_ne (heap st) p2 p1) by done.
    rewrite insert_insert_eq. reflexivity.
  - assert (Hf : field <> []) by (intros ->; simpl in Hlen; lia).
    unfold bind at 1. rewrite bool_decide_eq_false_2 by done. cbn [negb].
    unfold write_buf. cbn [heap]. rewrite lookup_insert_eq.
    cbn [sds_buf]. rewrite decide_False; [reflexivity|].
    rewrite !length_app, length_repeat_Z. simpl. unfold to_uint32.
    pose proof (Z.mod_pos_bound (Z.of_nat (length field)) (2 ^ 32) ltac:(lia)).
    pose proof (Z.div_mod (Z.of_nat (length field)) (2 ^ 32) ltac:(lia)).
    assert (1 <= Z.of_nat (length field) / 2 ^ 32) by lia.
    lia.
Qed.

Lemma ObjEqual_layout (st : state) (e k : Z) (f1 f2 : list Z) (v1 v2 : Z) :
  key_layout (heap st) e f1 v1 -> key_layout (heap st) k f2 v2 ->
  ObjEqual e k 0 st = Done (bool_decide (f1 = f2)) st.
Proof.
  intros H1 H2. unfold ObjEqual, bind, CHECK_EQ. simpl. unfold ret at 1.
  rewrite (sdslen_layout st e f1 v1 H1), (sdslen_layout st k f2 v2 H2).
  destruct (Nat.eqb_spec (length f1) (length f2)) as [Heq|Hne]; simpl.
  - rewrite (sds_view_layout st e f1 v1 H1), (sds_view_layout st k f2 v2 H2).
    reflexivity.
  - unfold ret. rewrite bool_decide_eq_false_2; [done|]. by intros ->.
Qed.

Lemma ObjEqual_state (st st' : state) (e k cookie : Z) (b : bool) :
  ObjEqual e k cookie st = Done b st' -> st' = st.
Proof.
  unfold ObjEqual, bind, CHECK_EQ, sdslen, sds_view, bind, read_block, ret,
    fatal, undefined.
  intros H. repeat (case_match; try discriminate); by simplify_eq.
Qed.

Lemma FindEqual_state (ptr : Z) (es : list Z) (st st' : state) (b : bool) :
  FindEqual ptr es st = Done b st' -> st' = st.
Proof.
  revert st. induction es as [|e es IH]; intros st; simpl.
  - by intros [= _ <-].
  - unfold bind. destruct (ObjEqual e ptr 0 st) as [eq st1| |] eqn:E;
      try discriminate.
    apply ObjEqual_state in E as ->.
    destruct eq; [by intros [= _ <-] | apply IH].
Qed.

(** An entry with the field of [ptr] stops the search with true. *)
Lemma FindEqual_found (ptr : Z) (field : list Z) (vp : Z) (st : state)
    (es : list Z) :
  key_layout (heap st) ptr field vp ->
  (forall e, In e es -> exists f v, key_layout (heap st) e f v) ->
  (exists k v, In k es /\ key_layout (heap st) k field v) ->
  FindEqual ptr es st = Done true st.
Proof.
  intros Hptr. induction es as [|e es IH]; intros Hall (k & v & Hin & Hk).
  - destruct Hin.
  - destruct (Hall e (or_introl eq_refl)) as (f & ve & He).
    cbn [FindEqual]. unfold bind.
    rewrite (ObjEqual_layout st e ptr f field ve vp He Hptr).
    destruct (decide (f = field)) as [->|Hne].
    + by rewrite bool_decide_eq_true_2.
    + rewrite bool_decide_eq_false_2 by done.
      apply IH; [intros; apply Hall; by right|].
      destruct Hin as [->|Hin]; [|by eauto].
      destruct He as (blk & Hblk & Hl & Hb), Hk as (blk' & Hblk' & Hl' & Hb').
      rewrite Hblk in Hblk'. injection Hblk' as <-.
      exfalso. apply Hne.
      apply (f_equal (take (length f))) in Hb as Hb1.
      rewrite take_app_length in Hb1. rewrite Hb' in Hb1.
      rewrite Hl in Hl'. rewrite Hl' in Hb1.
      by rewrite take_app_length in Hb1.
Qed.

(** With no entry holding the field of [ptr] the search ends with
    false. *)
Lemma FindEqual_not_found (ptr : Z) (field : list Z) (vp : Z) (st : state)
    (es : list Z) :
  key_layout (heap st) ptr field vp ->
  (forall e, In e es ->
     exists f v, key_layout (heap st) e f v /\ f <> field) ->
  FindEqual ptr es st = Done false st.
Proof.
  intros Hptr. induction es as [|e es IH]; intros Hall; [reflexivity|].
  destruct (Hall e (or_introl eq_refl)) as (f & ve & He & Hne).
  cbn [FindEqual]. unfold bind.
  rewrite (ObjEqual_layout st e ptr f field ve vp He Hptr).
  rewrite bool_decide_eq_false_2 by done.
  apply IH. intros. apply Hall. by right.
Qed.

Lemma AddInternal_Done (ptr : Z) (has_ttl b : bool) (st st' : state) :
  AddInternal ptr has_ttl st = Done b st' ->
  st' = if b then State (heap st) (ptr :: entries st) else st.
Proof.
  unfold AddInternal, bind.
  destruct (FindEqual ptr (entries st) st) as [found st1| |] eqn:E;
    try discriminate.
  apply FindEqual_state in E as ->.
  destruct found; by intros [= <- <-].
Qed.

(** Keys and value buffers laid out in [h] are laid out in every heap
    that agrees with [h] on the addresses [h] uses. *)
Lemma entry_ok_mono (h h' : gmap Z sds_block) (key : Z) :
  (forall p blk, h !! p = Some blk -> h' !! p = Some blk) ->
  entry_ok h key -> entry_ok h' key.
Proof.
  intros Hsub (field & val & value & (kb & Hk & Hkl & Hkb) &
               (vb & Hv & Hvl & Hvb) & Hne & Hr).
  exists field, val, value.
  split; [exists kb; eauto | split; [exists vb; eauto | done]].
Qed.

Lemma ObjDelete_fatal_not_Done (p : Z) (st st' : state) (b : bool) :
  (ObjDelete p false ;; fatal) st <> Done b st'.
Proof.
  unfold bind. destruct (ObjDelete p false st); [unfold fatal|..]; discriminate.
Qed.

(** The heap after the two allocations of [AddOrSet] agrees with the heap
    before on every address that was in use. *)
Lemma new_buffers_frame (h : gmap Z sds_block) (p1 p2 : Z)
    (kb vb : sds_block) :
  p1 ∉ dom h -> p2 ∉ dom h ->
  forall p blk, h !! p = Some blk ->
                <[p1 := kb]> (<[p2 := vb]> h) !! p = Some blk.
Proof.
  intros H1 H2 p blk Hp.
  assert (p ∈ dom h) by (apply elem_of_dom; eauto).
  rewrite !lookup_insert_ne by set_solver. done.
Qed.

Lemma new_buffers_released (h : gmap Z sds_block) (p1 p2 : Z)
    (kb vb : sds_block) :
  p1 ∉ dom h -> p2 ∉ dom h -> p1 <> p2 ->
  delete p1 (delete p2 (<[p1 := kb]> (<[p2 := vb]> h))) = h.
Proof.
  intros H1%not_elem_of_dom H2%not_elem_of_dom Hne.
  rewrite delete_insert_ne by done.
  rewrite (delete_insert_id h p2) by done.
  by rewrite delete_insert_id.
Qed.

(** C6.  An [AddOrSet] that returns (with true) has pushed one key: a
    single allocation holding the field bytes, a NUL, and the 8-byte
    little-endian address of another allocation that holds the value
    bytes; [GetValue] reads that address back; and if every entry stored
    before had this layout, every entry stored after has it. *)
Theorem AddOrSet_entry_layout (zmalloc : gset Z -> option Z)
    (field value : list Z) (ttl_sec : Z) (st st' : state) :
  allocator_ok zmalloc ->
  AddOrSet zmalloc field value ttl_sec st = Done true st' ->
  exists key val,
    entries st' = key :: entries st /\
    key_layout (heap st') key field val /\
    value_buffer (heap st') val value /\
    val <> key /\
    GetValue key st' = Done val st' /\
    (layout_inv st -> layout_inv st').
Proof.
  intros Hok Hrun. rewrite (AddOrSet_outcome zmalloc) in Hrun by done.
  destruct (decide (ttl_sec = UINT32_MAX)) as [_|_]; [|discriminate].
  destruct (zmalloc (dom (heap st))) as [p1|] eqn:Hp1; [|discriminate].
  destruct (decide (Z.of_nat (length field) < 2 ^ 32)) as [Hlen|_];
    [|discriminate].
  destruct (zmalloc ({[p1]} ∪ dom (heap st))) as [p2|] eqn:Hp2;
    [|discriminate].
  destruct (Hok _ _ Hp1) as [Hf1 Hr1], (Hok _ _ Hp2) as [Hf2 Hr2].
  assert (Hne : p1 <> p2)
    by (intros ->; apply Hf2; by apply elem_of_union_l, elem_of_singleton).
  assert (Hf2' : p2 ∉ dom (heap st))
    by (intros Hin2; apply Hf2; by apply elem_of_union_r).
  set (kb := SdsBlock (length field) (field ++ [0] ++ le_split 8 p2)) in *.
  set (vb := SdsBlock (length value) (value ++ [0])) in *.
  set (h4 := <[p1 := kb]> (<[p2 := vb]> (heap st))) in *.
  unfold bind at 1 in Hrun.
  destruct (AddInternal p1 false (State h4 (entries st)))
    as [ok st5| |] eqn:Hadd; try discriminate.
  destruct ok; cbn [negb] in Hrun;
    [|by apply ObjDelete_fatal_not_Done in Hrun].
  apply AddInternal_Done in Hadd. cbn [heap entries] in Hadd.
  injection Hrun as <-. subst st5. cbn [heap entries].
  assert (Hkey : key_layout h4 p1 field p2).
  { exists kb. unfold h4. by rewrite lookup_insert_eq. }
  assert (Hvalue : value_buffer h4 p2 value).
  { exists vb. unfold h4.
    by rewrite lookup_insert_ne, lookup_insert_eq by done. }
  exists p1, p2. repeat split; try done.
  - apply (GetValue_layout (State h4 (p1 :: entries st)) p1 field p2);
      [done | lia].
  - intros Hinv key [<-|Hin].
    + exists field, p2, value. cbn [heap]. repeat split; (done || lia).
    + cbn [heap].
      apply (entry_ok_mono (heap st)); [by apply new_buffers_frame|].
      by apply Hinv.
Qed.

Lemma first_free_ok : allocator_ok first_free.
Proof.
  intros used p. unfold first_free.
  destruct (decide (0 < fresh ({[0]} ∪ used) < 2 ^ 64)) as [Hr|]; [|done].
  intros [= <-]. split; [|done].
  pose proof (is_fresh ({[0]} ∪ used)) as Hfresh.
  intros Hin. apply Hfresh. by apply elem_of_union_r.
Defined.

Lemma AddOrSet_entry_layout_witness :
  let field := bytes_of_string "ab" in
  let value := bytes_of_string "xyz" in
  let st' := State (<[1 := SdsBlock 2 (field ++ [0] ++ le_split 8 2)]>
                      (<[2 := SdsBlock 3 (value ++ [0])]> ∅)) [1] in
  exists key val,
    entries st' = key :: [] /\
    key_layout (heap st') key field val /\
    value_buffer (heap st') val value /\
    val <> key /\
    GetValue key st' = Done val st' /\
    (layout_inv (State ∅ []) -> layout_inv st').
Proof.
  intros field value st'.
  apply (AddOrSet_entry_layout first_free field value UINT32_MAX
           (State ∅ []) st' first_free_ok).
  vm_compute. reflexivity.
Defined.

(** The successful path is there: with a field below 4 GiB that no entry
    holds and two addresses from the allocator, [AddOrSet] returns true
    with the new key pushed. *)
Lemma AddOrSet_succeeds (zmalloc : gset Z -> option Z)
    (field value : list Z) (st : state) (p1 p2 : Z) :
  allocator_ok zmalloc -> Z.of_nat (length field) < 2 ^ 32 ->
  (forall e, In e (entries st) ->
     exists f v, key_layout (heap st) e f v /\ f <> field) ->
  zmalloc (dom (heap st)) = Some p1 ->
  zmalloc ({[p1]} ∪ dom (heap st)) = Some p2 ->
  AddOrSet zmalloc field value UINT32_MAX st =
  Done true
    (State (<[p1 := SdsBlock (length field) (field ++ [0] ++ le_split 8 p2)]>
              (<[p2 := SdsBlock (length value) (value ++ [0])]> (heap st)))
           (p1 :: entries st)).
Proof.
  intros Hok Hlen Hall Hp1 Hp2.
  rewrite (AddOrSet_outcome zmalloc) by done.
  rewrite decide_True, Hp1, decide_True, Hp2 by done.
  destruct (Hok _ _ Hp1) as [Hf1 Hr1], (Hok _ _ Hp2) as [Hf2 Hr2].
  assert (Hf2' : p2 ∉ dom (heap st))
    by (intros Hin2; apply Hf2; by apply elem_of_union_r).
  set (kb := SdsBlock (length field) (field ++ [0] ++ le_split 8 p2)).
  set (vb := SdsBlock (length value) (value ++ [0])).
  set (st4 := State (<[p1 := kb]> (<[p2 := vb]> (heap st))) (entries st)).
  assert (Hkey : key_layout (heap st4) p1 field p2).
  { exists kb. unfold st4. cbn [heap]. by rewrite lookup_insert_eq. }
  assert (Hfind : FindEqual p1 (entries st) st4 = Done false st4).
  { apply (FindEqual_not_found p1 field p2 st4 (entries st) Hkey).
    intros e He. destruct (Hall e He) as (f & v & (blk & ? & ?) & Hne).
    exists f, v. split; [|done]. exists blk.
    split; [by apply new_buffers_frame | done]. }
  unfold bind at 1. unfold AddInternal, bind at 1.
  change (entries st4) with (entries st). by rewrite Hfind.
Qed.

(** C8.  [AddOrSet] aborts at once for every [ttl_sec] other than
    [UINT32_MAX] and returns, with true, only for [UINT32_MAX]; and when
    the field is already in the map, the key and value buffers it has just
    allocated at [p1] and [p2] are freed again before it aborts: it aborts
    in the state it started from. *)
Theorem AddOrSet_fatal_paths (zmalloc : gset Z -> option Z)
    (field value : list Z) (ttl_sec : Z) (st : state) :
  allocator_ok zmalloc ->
  (ttl_sec <> UINT32_MAX ->
   AddOrSet zmalloc field value ttl_sec st = Fatal st) /\
  (forall b st', AddOrSet zmalloc field value ttl_sec st = Done b st' ->
                 ttl_sec = UINT32_MAX /\ b = true) /\
  (ttl_sec = UINT32_MAX ->
   layout_inv st -> Z.of_nat (length field) < 2 ^ 32 ->
   (exists k v, In k (entries st) /\ key_layout (heap st) k field v) ->
   forall p1 p2,
     zmalloc (dom (heap st)) = Some p1 ->
     zmalloc ({[p1]} ∪ dom (heap st)) = Some p2 ->
     AddOrSet zmalloc field value ttl_sec st = Fatal st).
Proof.
  intros Hok. rewrite (AddOrSet_outcome zmalloc) by done.
  split; [|split].
  - intros Hne. by rewrite decide_False.
  - intros b st' Hrun.
    destruct (decide (ttl_sec = UINT32_MAX)) as [Httl|_]; [|discriminate].
    split; [exact Httl|].
    destruct (zmalloc (dom (heap st))) as [p1|]; [|discriminate].
    destruct (decide (Z.of_nat (length field) < 2 ^ 32)); [|discriminate].
    destruct (zmalloc ({[p1]} ∪ dom (heap st))) as [p2|]; [|discriminate].
    unfold bind at 1 in Hrun.
    destruct (AddInternal p1 false _) as [ok st5| |]; try discriminate.
    destruct ok; cbn [negb] in Hrun;
      [by injection Hrun | by apply ObjDelete_fatal_not_Done in Hrun].
  - intros -> Hinv Hlen (k & v & Hin & Hk) p1 p2 Hp1 Hp2.
    rewrite decide_True, Hp1, decide_True, Hp2 by done.
    destruct (Hok _ _ Hp1) as [Hf1 Hr1], (Hok _ _ Hp2) as [Hf2 Hr2].
    assert (Hne : p1 <> p2)
      by (intros ->; apply Hf2; by apply elem_of_union_l, elem_of_singleton).
    assert (Hf2' : p2 ∉ dom (heap st))
      by (intros Hin2; apply Hf2; by apply elem_of_union_r).
    set (kb := SdsBlock (length field) (field ++ [0] ++ le_split 8 p2)).
    set (vb := SdsBlock (length value) (value ++ [0])).
    set (h4 := <[p1 := kb]> (<[p2 := vb]> (heap st))).
    set (st4 := State h4 (entries st)).
    assert (Hframe : forall p blk, heap st !! p = Some blk ->
                                   h4 !! p = Some blk)
      by (by apply new_buffers_frame).
    assert (Hkey : key_layout (heap st4) p1 field p2).
    { exists kb. unfold st4, h4. cbn [heap]. by rewrite lookup_insert_eq. }
    assert (Hfind : FindEqual p1 (entries st) st4 = Done true st4).
    { apply (FindEqual_found p1 field p2 st4 (entries st) Hkey).
      - intros e He. destruct (Hinv e He) as (f & ve & _ & (blk & ? & ?) & _).
        exists f, ve, blk. split; [by apply Hframe | done].
      - destruct Hk as (blk & ? & ?). exists k, v. split; [done|].
        exists blk. split; [by apply Hframe | done]. }
    unfold bind at 1. unfold AddInternal, bind at 1.
    change (entries st4) with (entries st). rewrite Hfind. cbn [negb].
    unfold ret at 1. unfold bind. cbn [negb]. cbv beta.
    rewrite (ObjDelete_run st4 p1 false field p2 vb); try (done || lia).
    + unfold fatal. unfold st4, h4. cbn [heap entries].
      rewrite new_buffers_released by done. by rewrite state_eta.
    + unfold st4, h4. cbn [heap].
      by rewrite lookup_insert_ne, lookup_insert_eq by done.
Qed.

Lemma AddOrSet_fatal_paths_witness :
  let field := bytes_of_string "ab" in
  let st := State (<[1 := SdsBlock 2 (field ++ [0] ++ le_split 8 2)]>
                     (<[2 := SdsBlock 3 (bytes_of_string "xyz" ++ [0])]> ∅))
                  [1] in
  AddOrSet first_free field (bytes_of_string "q") 7 st = Fatal st /\
  AddOrSet first_free field (bytes_of_string "q") UINT32_MAX st = Fatal st.
Proof.
  intros field st.
  destruct (AddOrSet_fatal_paths first_free field (bytes_of_string "q") 7 st
              first_free_ok) as (Httl & _ & _).
  destruct (AddOrSet_fatal_paths first_free field (bytes_of_string "q")
              UINT32_MAX st first_free_ok) as (_ & _ & Hdup).
  split.
  - apply Httl. vm_compute. discriminate.
  - apply (Hdup eq_refl) with (p1 := 3) (p2 := 4).
    + intros key [<-|[]].
      exists field, 2, (bytes_of_string "xyz").
      split; [|split; [|split]].
      * eexists. split; [vm_compute; reflexivity|]. split; reflexivity.
      * eexists. split; [vm_compute; reflexivity|]. split; reflexivity.
      * discriminate.
      * lia.
    + vm_compute. reflexivity.
    + exists 1, 2. split; [by left|].
      eexists. split; [vm_compute; reflexivity|]. split; reflexivity.
    + vm_compute. reflexivity.
    + vm_compute. reflexivity.
Defined.

Lemma Hash_ObjEqual_field_only_witness :
  let field := bytes_of_string "ab" in
  let XXH3 := fun (s : list Z) (seed : Z) => le_combine s + seed in
  let st := State (<[1 := SdsBlock 2 (field ++ [0] ++ le_split 8 2)]>
                  (<[2 := SdsBlock 3 (bytes_of_string "xyz" ++ [0])]>
                  (<[3 := SdsBlock 2 (field ++ [0] ++ le_split 8 4)]>
                  (<[4 := SdsBlock 1 (bytes_of_string "q" ++ [0])]> ∅))))
                  [1] in
  Hash XXH3 1 0 st = Done (CompactObj.HashCode_of XXH3 field) st /\
  Hash XXH3 3 0 st = Hash XXH3 1 0 st /\
  ObjEqual 1 3 0 st = Done true st /\
  (forall cookie, cookie <> 0 ->
     Hash XXH3 1 cookie st = Fatal st /\ ObjEqual 1 3 cookie st = Fatal st).
Proof.
  intros field XXH3 st.
  apply (Hash_ObjEqual_field_only XXH3 st 1 3 field 2 4).
  - eexists. split; [vm_compute; reflexivity|]. split; reflexivity.
  - eexists. split; [vm_compute; reflexivity|]. split; reflexivity.
Defined.

Lemma ObjDelete_ignores_has_ttl_witness :
  let field := bytes_of_string "ab" in
  let st := State (<[1 := SdsBlock 2 (field ++ [0] ++ le_split 8 2)]>
                  (<[2 := SdsBlock 3 (bytes_of_string "xyz" ++ [0])]> ∅))
                  [1] in
  ObjDelete 1 true st = ObjDelete 1 false st /\
  ObjDelete 1 true st =
  Done tt (State (delete 1 (delete 2 (heap st))) (entries st)).
Proof.
  intros field st.
  destruct (ObjDelete_ignores_has_ttl st 1) as [Hsame Hfree].
  split; [exact Hsame|].
  apply (Hfree true field 2 (SdsBlock 3 (bytes_of_string "xyz" ++ [0]))).
  - eexists. split; [vm_compute; reflexivity|]. split; reflexivity.
  - vm_compute. reflexivity.
  - discriminate.
  - discriminate.
  - lia.
Defined.

(** ** CompactObj *)

Lemma ascii_unpack_spec (s bpre brest out : list Z) (b o : nat) :
  Forall is_ascii s -> b = length bpre -> (o + length s <= length out)%nat ->
  ascii_unpack (bpre ++ pack_bytes s ++ brest) b (length s) out o =
  take o out ++ s ++ drop (o + length s) out.
Proof.
  intros Hs Hb Ho. unfold ascii_unpack.
  pose proof (unpack_loops_spec s (length s) (length s) 0 bpre brest
                (take o out) (drop o out) b o Hs) as H.
  rewrite take_drop in H.
  rewrite H; rewrite ?length_take, ?length_drop; try lia;
    [|unfold is_byte; lia].
  by rewrite drop_drop.
Qed.

Lemma load_bytes_all (s : list Z) : load_bytes s 0 (length s) = s.
Proof.
  rewrite <- (app_nil_r s) at 1. apply load_bytes_prefix.
Qed.

Lemma pack_unpack_whole (s : list Z) :
  Forall is_ascii s ->
  ascii_unpack (ascii_pack s 0 (length s)
                  (repeat 0 (binpacked_len (length s))) 0)
               0 (length s) (repeat 0 (length s)) 0 = s.
Proof.
  intros Hs.
  rewrite ascii_pack_spec by (rewrite ?repeat_length; simpl; lia).
  rewrite load_bytes_all. rewrite take_0.
  rewrite ascii_unpack_spec by (done || rewrite ?repeat_length; simpl; lia).
  rewrite take_0, drop_ge by (rewrite repeat_length; simpl; lia).
  by rewrite app_nil_r.
Qed.

Lemma GetString_encode (cs : bool) (cap : nat) (w : Z) (s : list Z)
    (e f : bool) :
  Forall is_byte s ->
  CompactObj.GetString (CompactObj.Obj (CompactObj.encode cs cap w s) e f) = s.
Proof.
  intros Hs. unfold CompactObj.GetString, CompactObj.encode.
  cbn [CompactObj.repr].
  destruct (CompactObj.as_small_int w s) as [i|] eqn:Hint.
  - unfold CompactObj.as_small_int in Hint.
    destruct (CompactObj.decimal_value s) as [j|]; [|discriminate].
    destruct (CompactObj.list_Z_eqb (CompactObj.decimal_text j) s) eqn:Heq;
      simpl in Hint; [|discriminate].
    destruct ((- 2 ^ (w - 1) <=? j) && (j <? 2 ^ (w - 1))); [|discriminate].
    injection Hint as <-.
    by apply bool_decide_eq_true_1 in Heq.
  - destruct ((binpacked_len (length s) <=? cap)%nat
              && validate_ascii_fast cs s (length s)) eqn:Hpacked.
    + apply andb_true_iff in Hpacked as [_ Hascii].
      apply validate_ascii_fast_spec in Hascii; [|done].
      rewrite load_bytes_all in Hascii. by apply pack_unpack_whole.
    + by destruct (length s <=? cap)%nat.
Qed.

(** C5.  [HashCode] and equality see only the logical string: two objects
    with the same logical string hash alike and compare equal whatever
    their representation; after [SetString s] the logical string is [s]
    and the hash is the seeded XXH3 of [s]; so for "key:0000000000000" it
    is the XXH3 of these bytes under seed 24061983. *)
Theorem HashCode_logical_content (XXH3 : list Z -> Z -> Z)
    (char_signed : bool) (inline_cap : nat) (int_width : Z) :
  (forall o1 o2 : CompactObj.t,
     CompactObj.GetString o1 = CompactObj.GetString o2 ->
     CompactObj.HashCode XXH3 o1 = CompactObj.HashCode XXH3 o2 /\
     CompactObj.equal o1 o2 = true) /\
  (forall (s : list Z) (o : CompactObj.t),
     Forall is_byte s ->
     let o' := CompactObj.SetString char_signed inline_cap int_width s o in
     CompactObj.GetString o' = s /\
     CompactObj.HashCode XXH3 o' = XXH3 s CompactObj.kSeed) /\
  (forall o : CompactObj.t,
     CompactObj.HashCode XXH3
       (CompactObj.SetString char_signed inline_cap int_width
          (bytes_of_string "key:0000000000000") o) =
     XXH3 (bytes_of_string "key:0000000000000") 24061983).
Proof.
  assert (Hset : forall s o, Forall is_byte s ->
            CompactObj.GetString
              (CompactObj.SetString char_signed inline_cap int_width s o) = s)
    by (intros; by apply GetString_encode).
  split; [|split].
  - intros o1 o2 Heq. unfold CompactObj.HashCode, CompactObj.equal.
    rewrite Heq. split; [done|].
    unfold CompactObj.list_Z_eqb. by apply bool_decide_eq_true_2.
  - intros s o Hs o'. unfold o', CompactObj.HashCode, CompactObj.HashCode_of.
    by rewrite Hset.
  - intros o. unfold CompactObj.HashCode, CompactObj.HashCode_of.
    rewrite Hset by forall_bytes. reflexivity.
Qed.

Lemma HashCode_logical_content_witness :
  let XXH3 := fun (s : list Z) (seed : Z) => le_combine s + seed in
  let o := CompactObj.Obj CompactObj.EMPTY false false in
  let packed := CompactObj.SetString true 16 64 (bytes_of_string "abcdefgh") o in
  let raw := CompactObj.Obj (CompactObj.INLINE_RAW (bytes_of_string "abcdefgh"))
                            true false in
  (CompactObj.HashCode XXH3 packed = CompactObj.HashCode XXH3 raw /\
   CompactObj.equal packed raw = true) /\
  CompactObj.GetString (CompactObj.SetString true 16 64 (bytes_of_string "42") o)
  = bytes_of_string "42".
Proof.
  intros XXH3 o packed raw.
  destruct (HashCode_logical_content XXH3 true 16 64) as (Heq & Hset & _).
  split.
  - apply Heq. vm_compute. reflexivity.
  - apply (Hset (bytes_of_string "42") o). forall_bytes.
Defined.

(** ** ascii_pack_simd *)

(** Below 32 bytes the vector loop does not run and [ascii_pack_simd] is
    [ascii_pack]. *)
Lemma ascii_pack_simd_short (ascii bin : list Z) (a len b : nat) :
  (len < 32)%nat ->
  ascii_pack_simd ascii a len bin b = ascii_pack ascii a len bin b.
Proof.
  intros Hlen. unfold ascii_pack_simd.
  assert (pack_simd_loop len (_mm_set1_epi64x 127) ascii a
            (Z.of_nat a + Z.of_nat len - 32) bin b = (a, b, bin)) as ->.
  { destruct len as [|len]; [reflexivity|]. cbn [pack_simd_loop].
    replace (Z.of_nat a <=? Z.of_nat a + Z.of_nat (S len) - 32) with false
      by (symmetry; apply Z.leb_gt; lia). reflexivity. }
  f_equal. lia.
Qed.

(** C1.  On 32 bytes ['a'] the vector packer and the scalar packer write
    different bytes: the first vector turn stores, for each lane, the low
    7 bits of its first byte followed by zeros. *)
Theorem ascii_pack_simd_differs :
  let ascii := repeat 97 32 in
  let bin := repeat 0 32 in
  load_bytes (ascii_pack_simd ascii 0 32 bin 0) 0 (binpacked_len 32) =
    [97; 0; 0; 0; 0; 0; 0; 97; 0; 0; 0; 0; 0; 0;
     225; 112; 56; 28; 14; 135; 195; 225; 112; 56; 28; 14; 135; 195] /\
  load_bytes (ascii_pack ascii 0 32 bin 0) 0 (binpacked_len 32) =
    [225; 112; 56; 28; 14; 135; 195; 225; 112; 56; 28; 14; 135; 195;
     225; 112; 56; 28; 14; 135; 195; 225; 112; 56; 28; 14; 135; 195] /\
  Forall is_ascii ascii /\
  ascii_pack_simd ascii 0 32 bin 0 <> ascii_pack ascii 0 32 bin 0.
Proof.
  intros ascii bin. split; [vm_compute; reflexivity|].
  split; [vm_compute; reflexivity|]. split; [forall_bytes|].
  vm_compute. discriminate.
Qed.

(** * Further properties of the codec *)

(** ** ascii_pack *)

Lemma peek_window_frame (pre mid mid' post : list Z) (i : nat) :
  length mid' = length mid ->
  (i < length pre \/ length pre + length mid <= i)%nat ->
  peek (pre ++ mid' ++ post) i = peek (pre ++ mid ++ post) i.
Proof.
  intros Hlen [Hi|Hi]; unfold peek.
  - by rewrite !lookup_app_l by done.
  - rewrite !lookup_app_r by lia. by rewrite Hlen.
Qed.

(** X1.  [ascii_pack(ascii, len, bin)] writes the [binpacked_len(len)]
    bytes from [bin] on and nothing else: the buffer keeps its length,
    every byte before [bin] or from [bin + binpacked_len(len)] on is what
    it was, and the bytes in between are a function of the [len] bytes
    read.  This holds for every [len], below 16 as well, and for input
    bytes with the high bit set. *)
Theorem ascii_pack_frame (ascii bin : list Z) (a len b : nat) :
  (a + len <= length ascii)%nat ->
  (b + binpacked_len len <= length bin)%nat ->
  length (ascii_pack ascii a len bin b) = length bin /\
  (forall i, (i < b \/ b + binpacked_len len <= i)%nat ->
     peek (ascii_pack ascii a len bin b) i = peek bin i) /\
  load_bytes (ascii_pack ascii a len bin b) b (binpacked_len len) =
  pack_bytes (load_bytes ascii a len).
Proof.
  intros Ha Hb. rewrite ascii_pack_spec by done.
  set (s := pack_bytes (load_bytes ascii a len)).
  assert (Hs : length s = binpacked_len len)
    by (unfold s; by rewrite pack_bytes_length, load_bytes_length).
  assert (Htake : length (take b bin) = b) by (rewrite length_take; lia).
  split; [|split].
  - rewrite !length_app, Htake, Hs, length_drop. lia.
  - intros i Hi.
    transitivity (peek (take b bin ++ load_bytes bin b (binpacked_len len)
                          ++ drop (b + binpacked_len len) bin) i);
      [|by rewrite <- buffer_window].
    apply peek_window_frame; rewrite ?load_bytes_length, ?Htake; (done || lia).
  - by apply load_bytes_at.
Qed.

Lemma ascii_pack_frame_witness :
  let s := bytes_of_string "key:0000000000000" in
  let bin := repeat 255 20 in
  length (ascii_pack s 0 17 bin 2) = 20%nat /\
  peek (ascii_pack s 0 17 bin 2) 1 = 255 /\
  peek (ascii_pack s 0 17 bin 2) 17 = 255.
Proof.
  intros s bin.
  assert (H1 : (0 + 17 <= length s)%nat) by (vm_compute; lia).
  assert (H2 : (2 + binpacked_len 17 <= length bin)%nat) by (vm_compute; lia).
  destruct (ascii_pack_frame s bin 0 17 2 H1 H2) as (Hlen & Hframe & _).
  split; [exact Hlen|]. split.
  - apply (Hframe 1%nat). left. lia.
  - apply (Hframe 17%nat). right. vm_compute. lia.
Defined.

(** X2.  With fewer than 8 bytes [ascii_pack] packs nothing: the epilog
    loop copies the input to [bin] byte for byte, whatever the bytes
    are. *)
Theorem ascii_pack_short_copy (ascii bin : list Z) (a len b : nat) :
  (len < 8)%nat ->
  (a + len <= length ascii)%nat -> (b + len <= length bin)%nat ->
  load_bytes (ascii_pack ascii a len bin b) b len = load_bytes ascii a len.
Proof.
  intros Hlen Ha Hb.
  rewrite ascii_pack_spec by (rewrite ?binpacked_len_short; done).
  rewrite pack_bytes_short by (by rewrite load_bytes_length).
  apply load_bytes_at; rewrite ?length_take, ?load_bytes_length; lia.
Qed.

Lemma ascii_pack_short_copy_witness :
  load_bytes (ascii_pack [200; 97; 255; 0; 98] 1 3 (repeat 0 4) 1) 1 3 =
  load_bytes [200; 97; 255; 0; 98] 1 3.
Proof.
  apply ascii_pack_short_copy.
  - lia.
  - vm_compute. lia.
  - vm_compute. lia.
Defined.

(** X3.  The word [ascii_pack] builds from 8 input bytes never has a bit
    above bit 55, whatever the input word: the [memcpy] of its 7 low
    bytes drops nothing, and the 7 bytes read back little-endian are the
    word. *)
Theorem pack_word_fits_7_bytes (val : Z) :
  0 <= pack_word val < 2 ^ 56 /\
  le_combine (le_split 7 (pack_word val)) = pack_word val.
Proof.
  assert (Hmod : pack_word val = pack_word val mod 2 ^ 56).
  { apply Z.bits_inj'. intros n Hn.
    rewrite Z.testbit_mod_pow2 by lia.
    destruct (Z.ltb_spec n 56) as [Hlt|Hge]; [by rewrite andb_true_l|].
    rewrite pack_word_testbit by lia.
    repeat match goal with
           | |- context [(?x <? ?y)] =>
               replace (x <? y) with false by (symmetry; apply Z.ltb_ge; lia)
           end.
    by rewrite !andb_false_r. }
  split.
  - rewrite Hmod. apply Z.mod_pos_bound. lia.
  - rewrite le_combine_le_split. symmetry. exact Hmod.
Qed.

(** ** compare_packed *)

(** X4.  Against the packed form of an ASCII string, [compare_packed]
    is true for a candidate ASCII string of the same length exactly when
    the candidate is that string, on either signedness of [char]. *)
Theorem compare_packed_decides_equality (char_signed : bool)
    (ascii cand bin : list Z) (a c len b : nat) :
  (a + len <= length ascii)%nat -> (c + len <= length cand)%nat ->
  (b + binpacked_len len <= length bin)%nat ->
  Forall is_ascii (load_bytes ascii a len) ->
  Forall is_ascii (load_bytes cand c len) ->
  compare_packed char_signed (ascii_pack ascii a len bin b) b cand c len = true
  <-> load_bytes cand c len = load_bytes ascii a len.
Proof.
  intros Ha Hc Hb Hascii Hcand.
  rewrite ascii_pack_spec by done.
  pose proof (compare_packed_spec char_signed (load_bytes ascii a len)
                (load_bytes cand c len)
                (take c cand) (drop (c + len) cand) (take b bin)
                (drop (b + binpacked_len len) bin) c b) as H.
  rewrite !load_bytes_length in H.
  rewrite <- (buffer_window cand c len) in H by lia.
  rewrite H; rewrite ?load_bytes_length, ?length_take; try (done || lia).
  rewrite bool_decide_eq_true. split; congruence.
Qed.

Lemma compare_packed_decides_equality_witness :
  let s := bytes_of_string "key:0000000000000" in
  let t := bytes_of_string "xxkey:0000000000000" in
  compare_packed true (ascii_pack s 0 17 (repeat 0 15) 0) 0 t 2 17 = true.
Proof.
  intros s t.
  apply (compare_packed_decides_equality true s t (repeat 0 15) 0 2 17 0).
  - vm_compute. lia.
  - vm_compute. lia.
  - vm_compute. lia.
  - forall_bytes.
  - forall_bytes.
  - reflexivity.
Defined.

(** ** ascii_unpack on arbitrary packed bytes *)

Lemma unpack8_eq (p c0 c1 c2 c3 c4 c5 c6 : Z) :
  unpack8 p [c0; c1; c2; c3; c4; c5; c6] =
  [ int_to_byte (Z.lor (Z.shiftr p (8 - 0)) (Z.land (Z.shiftl c0 0) 127));
    int_to_byte (Z.lor (Z.shiftr c0 (8 - 1)) (Z.land (Z.shiftl c1 1) 127));
    int_to_byte (Z.lor (Z.shiftr c1 (8 - 2)) (Z.land (Z.shiftl c2 2) 127));
    int_to_byte (Z.lor (Z.shiftr c2 (8 - 3)) (Z.land (Z.shiftl c3 3) 127));
    int_to_byte (Z.lor (Z.shiftr c3 (8 - 4)) (Z.land (Z.shiftl c4 4) 127));
    int_to_byte (Z.lor (Z.shiftr c4 (8 - 5)) (Z.land (Z.shiftl c5 5) 127));
    int_to_byte (Z.lor (Z.shiftr c5 (8 - 6)) (Z.land (Z.shiftl c6 6) 127));
    int_to_byte (Z.shiftr c6 1) ].
Proof. reflexivity. Qed.

Lemma list7_inv (q : list Z) :
  length q = 7%nat -> exists c0 c1 c2 c3 c4 c5 c6, q = [c0; c1; c2; c3; c4; c5; c6].
Proof.
  intros H.
  do 7 (destruct q as [|? q]; [discriminate H|]).
  destruct q; [|discriminate H]. by repeat eexists.
Qed.

Lemma unpack8_length (p : Z) (q : list Z) :
  length q = 7%nat -> length (unpack8 p q) = 8%nat.
Proof.
  intros H. destruct (list7_inv q H) as (c0&c1&c2&c3&c4&c5&c6&->).
  by rewrite unpack8_eq.
Qed.

(** One turn of the [while] loop of [ascii_unpack] over any seven
    bytes. *)
Lemma unpack_group_any (q bpre brest out : list Z) (p : Z) (b o : nat) :
  length q = 7%nat -> b = length bpre ->
  (let '(p1, b1, o1, ascii1) :=
     fold_left (unpack_step (bpre ++ q ++ brest))
               [0; 1; 2; 3; 4; 5; 6] (p, b, o, out) in
   (p1, b1, S o1, poke ascii1 o1 (int_to_byte (Z.shiftr p1 1)))) =
  (peek q 6, (b + 7)%nat, (o + 8)%nat, store_bytes out o (unpack8 p q)).
Proof.
  intros Hlen Hb.
  destruct (list7_inv q Hlen) as (c0&c1&c2&c3&c4&c5&c6&->).
  set (cs := [c0; c1; c2; c3; c4; c5; c6]).
  assert (Hload : load_bytes (bpre ++ cs ++ brest) b 7 = cs)
    by (by apply load_bytes_at).
  remember (bpre ++ cs ++ brest) as bin eqn:Hbin. clear Hbin.
  cbn [load_bytes seq map] in Hload. unfold cs in Hload.
  injection Hload as E0 E1 E2 E3 E4 E5 E6.
  cbn [fold_left unpack_step].
  rewrite E0, E1, E2, E3, E4, E5, E6.
  unfold cs. rewrite unpack8_eq. cbn [store_bytes].
  replace (b + 7)%nat with (S (S (S (S (S (S (S b))))))) by lia.
  replace (o + 8)%nat with (S (S (S (S (S (S (S (S o)))))))) by lia.
  reflexivity.
Qed.

Lemma unpack_bytes_length (n : nat) :
  forall (t : nat) (p : Z) (q : list Z),
    length q = (7 * n + t)%nat -> length (unpack_bytes n p q) = (8 * n + t)%nat.
Proof.
  induction n as [|n IH]; intros t p q Hq; cbn [unpack_bytes]; [done|].
  rewrite length_app, unpack8_length by (rewrite length_take; lia).
  rewrite (IH t) by (rewrite length_drop; lia). lia.
Qed.

(** The two loops of [ascii_unpack] over [n] groups of seven bytes and
    [t < 8] more. *)
Lemma unpack_loops_any (n : nat) :
  forall (t : nat) (q : list Z) (fuel1 fuel2 : nat) (p : Z)
         (bpre brest opre omid : list Z) (b o : nat),
    length q = (7 * n + t)%nat -> (t < 8)%nat ->
    b = length bpre -> o = length opre ->
    (8 * n + t <= fuel1)%nat -> (t <= fuel2)%nat ->
    (8 * n + t <= length omid)%nat ->
    (let '(b', len', ascii', o') :=
       unpack_groups fuel1 (bpre ++ q ++ brest) p b (8 * n + t)
                     (opre ++ omid) o in
     unpack_tail fuel2 (bpre ++ q ++ brest) b' 0 len' ascii' o') =
    opre ++ unpack_bytes n p q ++ drop (8 * n + t) omid.
Proof.
  induction n as [|n IH];
    intros t q fuel1 fuel2 p bpre brest opre omid b o Hq Ht Hb Ho Hf1 Hf2 Hm.
  - cbn [unpack_bytes]. replace (8 * 0 + t)%nat with t in * by lia.
    replace (7 * 0 + t)%nat with t in Hq by lia.
    assert (unpack_groups fuel1 (bpre ++ q ++ brest) p b t (opre ++ omid) o =
            (b, t, opre ++ omid, o)) as ->.
    { destruct fuel1 as [|fuel1]; cbn [unpack_groups]; [done|].
      replace (8 <=? t)%nat with false by (symmetry; apply Nat.leb_gt; lia).
      done. }
    rewrite <- Hq. apply unpack_tail_spec; (done || lia).
  - assert (Hsplit : q = take 7 q ++ drop 7 q) by (by rewrite take_drop).
    assert (Hg : length (take 7 q) = 7%nat) by (rewrite length_take; lia).
    assert (Hr : length (drop 7 q) = (7 * n + t)%nat)
      by (rewrite length_drop; lia).
    revert Hsplit Hg Hr. generalize (take 7 q) (drop 7 q).
    intros g r -> Hg Hr. clear Hq.
    cbn [unpack_bytes].
    rewrite take_app_length' by done. rewrite drop_app_length' by done.
    rewrite (peek_app_l g r 6) by lia.
    destruct fuel1 as [|fuel1]; [lia|]. cbn [unpack_groups].
    replace (8 <=? 8 * S n + t)%nat with true
      by (symmetry; apply Nat.leb_le; lia).
    rewrite <- (app_assoc g r brest).
    pose proof (unpack_group_any g bpre (r ++ brest) (opre ++ omid) p b o
                  Hg Hb) as Hgroup.
    remember (store_bytes (opre ++ omid) o (unpack8 p g)) as w eqn:Hw.
    remember (peek g 6) as p' eqn:Hp'.
    destruct (fold_left _ _ _) as [[[p1 b1] o1] ascii1].
    injection Hgroup as -> -> Ho1 ->.
    rewrite Ho1. subst w p'.
    rewrite (store_bytes_at (unpack8 p g) opre omid o)
      by (rewrite ?unpack8_length; (done || lia)).
    rewrite unpack8_length by done.
    replace (8 * S n + t - 8)%nat with (8 * n + t)%nat by lia.
    replace (bpre ++ g ++ r ++ brest) with ((bpre ++ g) ++ r ++ brest)
      by (by rewrite <- app_assoc).
    rewrite (IH t r fuel1 fuel2 (peek g 6) (bpre ++ g) brest
               (opre ++ unpack8 p g) (drop 8 omid));
      rewrite ?length_app, ?unpack8_length, ?length_drop; try done; try lia.
    rewrite drop_drop, <- !app_assoc. do 4 f_equal. lia.
Qed.

Lemma binpacked_len_div_mod (len : nat) :
  len = (8 * (len / 8) + len mod 8)%nat /\
  binpacked_len len = (7 * (len / 8) + len mod 8)%nat /\
  (len mod 8 < 8)%nat.
Proof.
  split; [apply Nat.div_mod; lia|]. split; [reflexivity|].
  apply Nat.mod_upper_bound. lia.
Qed.

(** [ascii_unpack] leaves the bytes before [ascii + o] and after the
    [ascii_len] bytes it writes as they were and writes [unpack_bytes] of
    the packed bytes in between. *)
Lemma ascii_unpack_any (bin out : list Z) (b len o : nat) :
  (b + binpacked_len len <= length bin)%nat ->
  (o + len <= length out)%nat ->
  ascii_unpack bin b len out o =
  take o out
    ++ unpack_bytes (len / 8) 0 (load_bytes bin b (binpacked_len len))
    ++ drop (o + len) out.
Proof.
  intros Hb Ho. unfold ascii_unpack.
  destruct (binpacked_len_div_mod len) as (Hlen & Hplen & Ht).
  pose proof (unpack_loops_any (len / 8) (len mod 8)
                (load_bytes bin b (binpacked_len len)) len len 0
                (take b bin) (drop (b + binpacked_len len) bin)
                (take o out) (drop o out) b o) as H.
  rewrite <- (buffer_window bin b (binpacked_len len) Hb) in H.
  rewrite take_drop, <- Hlen in H.
  rewrite H; rewrite ?length_take, ?length_drop, ?load_bytes_length;
    try (done || lia).
  by rewrite drop_drop.
Qed.

(** X5.  [ascii_unpack(bin, ascii_len, ascii)] writes the [ascii_len]
    bytes from [ascii] on and nothing else, whatever the packed bytes
    are: the destination keeps its length and every byte before [ascii]
    or from [ascii + ascii_len] on is what it was. *)
Theorem ascii_unpack_frame (bin out : list Z) (b len o : nat) :
  (b + binpacked_len len <= length bin)%nat ->
  (o + len <= length out)%nat ->
  length (ascii_unpack bin b len out o) = length out /\
  (forall i, (i < o \/ o + len <= i)%nat ->
     peek (ascii_unpack bin b len out o) i = peek out i).
Proof.
  intros Hb Ho. rewrite ascii_unpack_any by done.
  destruct (binpacked_len_div_mod len) as (Hlen & Hplen & Ht).
  set (u := unpack_bytes _ _ _).
  assert (Hu : length u = len).
  { unfold u. rewrite (unpack_bytes_length _ (len mod 8));
      [lia | by rewrite load_bytes_length]. }
  assert (Htake : length (take o out) = o) by (rewrite length_take; lia).
  split.
  - rewrite !length_app, Htake, Hu, length_drop. lia.
  - intros i Hi.
    transitivity (peek (take o out ++ load_bytes out o len
                          ++ drop (o + len) out) i);
      [|by rewrite <- buffer_window].
    apply peek_window_frame; rewrite ?load_bytes_length, ?Htake; (done || lia).
Qed.

Lemma ascii_unpack_frame_witness :
  let out := bytes_of_string "xxxxxxxxxxxx" in
  length (ascii_unpack [255; 255; 255; 255; 255; 255; 255; 200] 0 9 out 2) =
    12%nat /\
  peek (ascii_unpack [255; 255; 255; 255; 255; 255; 255; 200] 0 9 out 2) 11 =
    120.
Proof.
  intros out.
  assert (H1 : (0 + binpacked_len 9 <=
                length [255; 255; 255; 255; 255; 255; 255; 200])%nat)
    by (vm_compute; lia).
  assert (H2 : (2 + 9 <= length out)%nat) by (vm_compute; lia).
  destruct (ascii_unpack_frame [255; 255; 255; 255; 255; 255; 255; 200] out
              0 9 2 H1 H2) as (Hlen & Hframe).
  split; [exact Hlen|].
  apply (Hframe 11%nat). right. lia.
Defined.

(** ** What [ascii_unpack] writes for a group *)

Lemma unpack_byte_ascii (p c k : Z) :
  is_byte p -> 0 <= k < 8 ->
  is_ascii (int_to_byte (Z.lor (Z.shiftr p (8 - k))
                               (Z.land (Z.shiftl c k) 127))).
Proof.
  intros Hp Hk. apply is_ascii_testbit; [apply int_to_byte_is_byte|].
  unfold int_to_byte. change 256 with (2 ^ 8).
  rewrite Z.mod_pow2_bits_low, Z.lor_spec, Z.land_spec, Z.shiftr_spec by lia.
  rewrite (byte_testbit_high p) by (done || lia).
  change (Z.testbit 127 7) with false. by rewrite andb_false_r.
Qed.

Lemma unpack_last_ascii (p : Z) :
  is_byte p -> is_ascii (int_to_byte (Z.shiftr p 1)).
Proof.
  intros Hp. apply is_ascii_testbit; [apply int_to_byte_is_byte|].
  unfold int_to_byte. change 256 with (2 ^ 8).
  rewrite Z.mod_pow2_bits_low, Z.shiftr_spec by lia.
  apply byte_testbit_high; (done || lia).
Qed.

Lemma unpack8_ascii (p : Z) (q : list Z) :
  is_byte p -> Forall is_byte q -> length q = 7%nat ->
  Forall is_ascii (unpack8 p q).
Proof.
  intros Hp Hq Hlen. destruct (list7_inv q Hlen) as (c0&c1&c2&c3&c4&c5&c6&->).
  repeat (apply Forall_cons_1 in Hq; destruct Hq as [?H Hq]).
  rewrite unpack8_eq.
  repeat (apply Forall_cons; split;
          [first [apply unpack_byte_ascii; (done || lia)
                 | by apply unpack_last_ascii]|]).
  apply Forall_nil_2.
Qed.

(** Packing the eight bytes a group unpacks to gives the seven packed
    bytes back. *)
Lemma pack8_unpack8 (p : Z) (q : list Z) :
  is_byte p -> Forall is_byte q -> length q = 7%nat ->
  pack8 (unpack8 p q) = q.
Proof.
  intros Hp Hq Hlen.
  pose proof (unpack8_ascii p q Hp Hq Hlen) as Hascii.
  destruct (list7_inv q Hlen) as (c0&c1&c2&c3&c4&c5&c6&->).
  rewrite unpack8_eq in *.
  rewrite (pack8_ascii _ _ _ _ _ _ _ _ Hascii). clear Hascii.
  repeat (apply Forall_cons_1 in Hq; destruct Hq as [?H Hq]).
  clear Hq.
  rewrite (byte_mod p Hp). clear Hp.
  rewrite (byte_mod c0 H), (byte_mod c1 H0), (byte_mod c2 H1),
    (byte_mod c3 H2), (byte_mod c4 H3), (byte_mod c5 H4), (byte_mod c6 H5).
  clear H H0 H1 H2 H3 H4 H5.
  unfold packed_byte, int_to_byte.
  change 127 with (Z.ones 7). change 256 with (2 ^ 8).
  rewrite !Z.land_ones by lia.
  list_eq.
  all: bits8.
Qed.

Lemma unpack_bytes_groups_ascii (n : nat) :
  forall (t : nat) (p : Z) (q : list Z),
    is_byte p -> Forall is_byte q -> length q = (7 * n + t)%nat ->
    Forall is_ascii (take (8 * n) (unpack_bytes n p q)).
Proof.
  induction n as [|n IH]; intros t p q Hp Hq Hlen.
  - rewrite take_0. apply Forall_nil_2.
  - cbn [unpack_bytes].
    assert (Hg : length (take 7 q) = 7%nat) by (rewrite length_take; lia).
    replace (8 * S n)%nat with (length (unpack8 p (take 7 q)) + 8 * n)%nat
      by (rewrite unpack8_length by done; lia).
    rewrite take_app_add'  by done.
    apply Forall_app. split.
    + apply unpack8_ascii; [done | by apply Forall_take | done].
    + apply (IH t).
      * apply (peek_Forall is_byte); [unfold is_byte; lia | done].
      * by apply Forall_drop.
      * rewrite length_drop. lia.
Qed.

Lemma pack_unpack_bytes (n : nat) :
  forall (t : nat) (p : Z) (q : list Z),
    is_byte p -> Forall is_byte q -> length q = (7 * n + t)%nat ->
    (t < 8)%nat ->
    pack_bytes (unpack_bytes n p q) = q.
Proof.
  induction n as [|n IH]; intros t p q Hp Hq Hlen Ht.
  - cbn [unpack_bytes]. apply pack_bytes_short. lia.
  - cbn [unpack_bytes].
    assert (Hg : length (take 7 q) = 7%nat) by (rewrite length_take; lia).
    rewrite pack_bytes_app by (by apply unpack8_length).
    rewrite pack8_unpack8 by (done || by apply Forall_take).
    rewrite (IH t).
    + apply take_drop.
    + apply (peek_Forall is_byte); [unfold is_byte; lia | done].
    + by apply Forall_drop.
    + rewrite length_drop. lia.
    + done.
Qed.

(** X6.  Every byte [ascii_unpack] writes for a full group of 8 is a
    7-bit value, whatever bytes the packed buffer holds; only the final
    [ascii_len mod 8] bytes, which are copied, can have the high bit
    set. *)
Theorem ascii_unpack_groups_ascii (bin out : list Z) (b len o : nat) :
  (b + binpacked_len len <= length bin)%nat ->
  (o + len <= length out)%nat ->
  Forall is_byte bin ->
  forall i, (i < 8 * (len / 8))%nat ->
    is_ascii (peek (ascii_unpack bin b len out o) (o + i)).
Proof.
  intros Hb Ho Hbin i Hi. rewrite ascii_unpack_any by done.
  destruct (binpacked_len_div_mod len) as (Hlen & Hplen & Ht).
  set (q := load_bytes bin b (binpacked_len len)).
  assert (Hq : length q = (7 * (len / 8) + len mod 8)%nat)
    by (unfold q; by rewrite load_bytes_length).
  pose proof (unpack_bytes_groups_ascii (len / 8) (len mod 8) 0 q
                ltac:(unfold is_byte; lia)
                ltac:(by apply load_bytes_is_byte) Hq) as Hascii.
  pose proof (unpack_bytes_length (len / 8) (len mod 8) 0 q Hq) as Hu.
  assert (Htake : length (take o out) = o) by (rewrite length_take; lia).
  pose proof (peek_app_r (take o out)
                (unpack_bytes (len / 8) 0 q ++ drop (o + len) out) i) as E.
  rewrite Htake in E. rewrite E, peek_app_l by lia.
  unfold peek.
  destruct (lookup_lt_is_Some_2 (unpack_bytes (len / 8) 0 q) i ltac:(lia))
    as [x Hx].
  rewrite Hx. simpl.
  apply (Forall_lookup_1 _ _ i x Hascii).
  rewrite lookup_take_lt by lia. exact Hx.
Qed.

Lemma ascii_unpack_groups_ascii_witness :
  is_ascii (peek (ascii_unpack [255; 255; 255; 255; 255; 255; 255; 200] 0 9
                               (repeat 0 9) 0) (0 + 7)).
Proof.
  apply ascii_unpack_groups_ascii.
  - vm_compute. lia.
  - vm_compute. lia.
  - forall_bytes.
  - vm_compute. lia.
Defined.

(** X7.  Unpacking any [binpacked_len(len)] bytes and packing the result
    again gives these bytes back: every byte string of that length is
    the packed form of what it unpacks to. *)
Theorem unpack_pack_roundtrip (bin out bin2 : list Z) (b len o b2 : nat) :
  (b + binpacked_len len <= length bin)%nat ->
  (o + len <= length out)%nat ->
  (b2 + binpacked_len len <= length bin2)%nat ->
  Forall is_byte (load_bytes bin b (binpacked_len len)) ->
  load_bytes (ascii_pack (ascii_unpack bin b len out o) o len bin2 b2)
             b2 (binpacked_len len) =
  load_bytes bin b (binpacked_len len).
Proof.
  intros Hb Ho Hb2 Hq. rewrite ascii_unpack_any by done.
  destruct (binpacked_len_div_mod len) as (Hlen & Hplen & Ht).
  set (q := load_bytes bin b (binpacked_len len)) in *.
  assert (Hql : length q = (7 * (len / 8) + len mod 8)%nat)
    by (unfold q; by rewrite load_bytes_length).
  pose proof (unpack_bytes_length (len / 8) (len mod 8) 0 q Hql) as Hu.
  pose proof (pack_unpack_bytes (len / 8) (len mod 8) 0 q
                ltac:(unfold is_byte; lia) Hq Hql Ht) as Hpack.
  set (u := unpack_bytes (len / 8) 0 q) in *.
  assert (Htake : length (take o out) = o) by (rewrite length_take; lia).
  rewrite ascii_pack_spec
    by (rewrite ?length_app, ?Htake, ?Hu, ?length_drop; lia).
  rewrite (load_bytes_at (take o out) u) by lia.
  rewrite Hpack.
  apply load_bytes_at; [rewrite length_take; lia | lia].
Qed.

Lemma unpack_pack_roundtrip_witness :
  let q := [255; 0; 129; 7; 200; 255; 1; 255; 128] in
  load_bytes (ascii_pack (ascii_unpack q 0 10 (repeat 0 10) 0) 0 10
                         (repeat 0 9) 0) 0 (binpacked_len 10) =
  load_bytes q 0 (binpacked_len 10).
Proof.
  intros q.
  apply (unpack_pack_roundtrip q (repeat 0 10) (repeat 0 9) 0 10 0 0).
  - vm_compute. lia.
  - vm_compute. lia.
  - vm_compute. lia.
  - forall_bytes.
Defined.

(** ** Where the round trip is lossless *)

Lemma le_split_is_byte (n : nat) (w : Z) : Forall is_byte (le_split n w).
Proof.
  revert w. induction n as [|n IH]; intros w; cbn [le_split];
    [apply Forall_nil_2|].
  apply Forall_cons. split; [|apply IH].
  unfold is_byte. change 255 with (Z.ones 8). rewrite Z.land_ones by lia.
  apply Z.mod_pos_bound. lia.
Qed.

Lemma pack_bytes_is_byte (s : list Z) :
  Forall is_byte s -> Forall is_byte (pack_bytes s).
Proof.
  induction s as [s Hs|g s Hg IH] using chunk8_ind; intros H.
  - by rewrite pack_bytes_short.
  - apply Forall_app in H as [_ H].
    rewrite pack_bytes_app by done. apply Forall_app.
    split; [apply le_split_is_byte | by apply IH].
Qed.

(** Unpacking the seven bytes a group of eight ASCII bytes packs to gives
    the group back. *)
Lemma unpack8_pack8 (p : Z) (g : list Z) :
  is_byte p -> Forall is_ascii g -> length g = 8%nat ->
  unpack8 p (pack8 g) = g.
Proof.
  intros Hp Hg Hlen.
  destruct (list8_inv g Hlen) as (b0&b1&b2&b3&b4&b5&b6&b7&->).
  rewrite (pack8_ascii _ _ _ _ _ _ _ _ Hg), unpack8_eq.
  exact (unpack_bits p b0 b1 b2 b3 b4 b5 b6 b7 Hp Hg).
Qed.

Lemma take_groups (g s : list Z) (n : nat) :
  length g = 8%nat -> take (8 * S n) (g ++ s) = g ++ take (8 * n) s.
Proof.
  intros Hg. replace (8 * S n)%nat with (length g + 8 * n)%nat by lia.
  apply take_app_add'. done.
Qed.

Lemma unpack_pack_bytes (n : nat) :
  forall (t : nat) (p : Z) (s : list Z),
    is_byte p -> length s = (8 * n + t)%nat -> (t < 8)%nat ->
    Forall is_ascii (take (8 * n) s) ->
    unpack_bytes n p (pack_bytes s) = s.
Proof.
  induction n as [|n IH]; intros t p s Hp Hlen Ht Hascii.
  - cbn [unpack_bytes]. apply pack_bytes_short. lia.
  - assert (Hsplit : s = take 8 s ++ drop 8 s) by (by rewrite take_drop).
    assert (Hg : length (take 8 s) = 8%nat) by (rewrite length_take; lia).
    assert (Hr : length (drop 8 s) = (8 * n + t)%nat)
      by (rewrite length_drop; lia).
    revert Hsplit Hg Hr. generalize (take 8 s) (drop 8 s).
    intros g r -> Hg Hr. clear Hlen.
    rewrite take_groups in Hascii by done.
    apply Forall_app in Hascii as [Hag Har].
    rewrite pack_bytes_app by done. cbn [unpack_bytes].
    rewrite take_app_length' by (by rewrite pack8_length).
    rewrite drop_app_length' by (by rewrite pack8_length).
    rewrite (peek_app_l (pack8 g)) by (rewrite pack8_length; lia).
    rewrite unpack8_pack8 by done. f_equal.
    apply (IH t); try done.
    apply (peek_Forall is_byte); [unfold is_byte; lia|].
    apply le_split_is_byte.
Qed.

(** X15.  Packing [len] bytes and unpacking them again gives the bytes
    back exactly when every byte of the full groups of 8, that is each of
    the first [8 * (len / 8)] bytes, is a 7-bit value.  A byte above 0x7F
    survives only in the last [len mod 8] bytes, which are copied. *)
Theorem roundtrip_lossless_iff (ascii bin out : list Z) (a len b o : nat) :
  (a + len <= length ascii)%nat ->
  (b + binpacked_len len <= length bin)%nat ->
  (o + len <= length out)%nat ->
  Forall is_byte (load_bytes ascii a len) ->
  load_bytes (ascii_unpack (ascii_pack ascii a len bin b) b len out o) o len =
  load_bytes ascii a len
  <-> Forall is_ascii (load_bytes ascii a (8 * (len / 8))).
Proof.
  intros Ha Hb Ho Hbytes.
  destruct (binpacked_len_div_mod len) as (Hlen & Hplen & Ht).
  set (n := (len / 8)%nat) in *. set (t := (len mod 8)%nat) in *.
  set (s := load_bytes ascii a len) in *.
  assert (Hs : length s = (8 * n + t)%nat)
    by (unfold s; rewrite load_bytes_length; lia).
  assert (Hgroups : load_bytes ascii a (8 * n) = take (8 * n) s).
  { unfold s. rewrite Hlen, load_bytes_add.
    by rewrite take_app_length' by (by rewrite load_bytes_length). }
  assert (Hq : length (pack_bytes s) = (7 * n + t)%nat).
  { rewrite pack_bytes_length. unfold s. rewrite load_bytes_length.
    exact Hplen. }
  assert (Hpacked : length (ascii_pack ascii a len bin b) = length bin /\
                    load_bytes (ascii_pack ascii a len bin b) b
                      (binpacked_len len) = pack_bytes s).
  { rewrite ascii_pack_spec by done. fold s.
    assert (Htake : length (take b bin) = b) by (rewrite length_take; lia).
    split.
    - rewrite !length_app, Htake, length_drop. lia.
    - apply load_bytes_at; lia. }
  destruct Hpacked as [Hplength Hpwin].
  rewrite ascii_unpack_any by lia. rewrite Hpwin.
  assert (Hu : length (unpack_bytes n 0 (pack_bytes s)) = len)
    by (rewrite (unpack_bytes_length n t) by done; lia).
  rewrite (load_bytes_at (take o out) (unpack_bytes n 0 (pack_bytes s)))
    by (rewrite ?length_take; lia).
  rewrite Hgroups. split.
  - intros <-.
    apply (unpack_bytes_groups_ascii n t);
      [unfold is_byte; lia | by apply pack_bytes_is_byte | done].
  - intros Hascii.
    apply (unpack_pack_bytes n t); (done || unfold is_byte; lia).
Qed.

Lemma roundtrip_lossless_iff_witness :
  let s := [97; 98; 99; 100; 101; 102; 103; 104; 200; 255] in
  load_bytes (ascii_unpack (ascii_pack s 0 10 (repeat 0 9) 0) 0 10
                           (repeat 0 10) 0) 0 10 =
  load_bytes s 0 10.
Proof.
  intros s.
  apply (roundtrip_lossless_iff s (repeat 0 9) (repeat 0 10) 0 10 0 0).
  - vm_compute. lia.
  - vm_compute. lia.
  - vm_compute. lia.
  - forall_bytes.
  - forall_bytes.
Defined.

(** ** The validator as the guard of the codec *)

Lemma load_bytes_drop_at (m : list Z) (a n : nat) :
  forall i, load_bytes (drop a m) i n = load_bytes m (a + i) n.
Proof.
  induction n as [|n IH]; intros i; [done|].
  rewrite !load_bytes_S, IH. unfold peek. rewrite lookup_drop.
  by replace (a + S i)%nat with (S (a + i)) by lia.
Qed.

Lemma load_bytes_drop (m : list Z) (a n : nat) :
  load_bytes (drop a m) 0 n = load_bytes m a n.
Proof. rewrite load_bytes_drop_at. by rewrite Nat.add_0_r. Qed.

(** X16.  What [validate_ascii_fast] accepts, the codec handles: if the
    validator returns true on [len] bytes, then unpacking their packed
    form gives the bytes back and [compare_packed] of the packed form
    against them is true. *)
Theorem validated_input_roundtrips (char_signed : bool)
    (ascii bin out : list Z) (a len b o : nat) :
  Forall is_byte ascii ->
  (a + len <= length ascii)%nat ->
  (b + binpacked_len len <= length bin)%nat ->
  (o + len <= length out)%nat ->
  validate_ascii_fast char_signed (drop a ascii) len = true ->
  load_bytes (ascii_unpack (ascii_pack ascii a len bin b) b len out o) o len =
    load_bytes ascii a len /\
  compare_packed char_signed (ascii_pack ascii a len bin b) b ascii a len =
    true.
Proof.
  intros Hbytes Ha Hb Ho Hvalid.
  apply validate_ascii_fast_spec in Hvalid; [|by apply Forall_drop].
  rewrite load_bytes_drop in Hvalid.
  rewrite ascii_pack_spec by done.
  pose proof (load_bytes_length ascii a len) as Hs.
  split.
  - pose proof (ascii_unpack_spec (load_bytes ascii a len) (take b bin)
                  (drop (b + binpacked_len len) bin) out b o Hvalid) as H.
    rewrite Hs in H. rewrite H by (rewrite ?length_take; lia).
    apply load_bytes_at; rewrite ?length_take; lia.
  - pose proof (compare_packed_spec char_signed (load_bytes ascii a len)
                  (load_bytes ascii a len) (take a ascii)
                  (drop (a + len) ascii) (take b bin)
                  (drop (b + binpacked_len len) bin) a b) as H.
    rewrite Hs in H.
    rewrite <- (buffer_window ascii a len Ha) in H.
    rewrite H by (rewrite ?length_take; (done || lia)).
    by apply bool_decide_eq_true_2.
Qed.

Lemma validated_input_roundtrips_witness :
  let s := bytes_of_string "xxkey:0000000000000" in
  load_bytes (ascii_unpack (ascii_pack s 2 17 (repeat 0 15) 0) 0 17
                           (repeat 0 17) 0) 0 17 =
    load_bytes s 2 17 /\
  compare_packed true (ascii_pack s 2 17 (repeat 0 15) 0) 0 s 2 17 = true.
Proof.
  intros s.
  apply (validated_input_roundtrips true s (repeat 0 15) (repeat 0 17)
           2 17 0 0).
  - forall_bytes.
  - vm_compute. lia.
  - vm_compute. lia.
  - vm_compute. lia.
  - vm_compute. reflexivity.
Defined.

(** ** compare_packed below 8 bytes *)

(** The final loop of [compare_packed] over a string and its verbatim
    copy: a [char] above 0x7F is promoted to a negative [int] when [char]
    is signed and never equals the [uint8_t] it is compared with. *)
Lemma compare_tail_verbatim (cs : bool) (s : list Z) :
  forall (fuel : nat) (apre arest bpre brest : list Z) (a e p : nat),
    Forall is_byte s ->
    a = length apre -> p = length bpre -> e = (a + length s)%nat ->
    (length s <= fuel)%nat ->
    compare_tail cs fuel (bpre ++ s ++ brest) (apre ++ s ++ arest) a e p = true
    <-> cs = false \/ Forall is_ascii s.
Proof.
  induction s as [|x s IH];
    intros fuel apre arest bpre brest a e p Hs Ha Hp He Hf.
  - simpl in He. split; [|intros _].
    + intros _. right. apply Forall_nil_2.
    + destruct fuel as [|fuel]; cbn [compare_tail]; [done|].
      replace (a <? e)%nat with false by (symmetry; apply Nat.ltb_ge; lia).
      done.
  - simpl length in *. destruct fuel as [|fuel]; [lia|]. cbn [compare_tail].
    replace (a <? e)%nat with true by (symmetry; apply Nat.ltb_lt; lia).
    apply Forall_cons_1 in Hs as [Hx Hs].
    change (apre ++ (x :: s) ++ arest) with (apre ++ x :: s ++ arest).
    change (bpre ++ (x :: s) ++ brest) with (bpre ++ x :: s ++ brest).
    assert (E1 : peek (apre ++ x :: s ++ arest) a = x).
    { subst a. replace (length apre) with (length apre + 0)%nat by lia.
      by rewrite peek_app_r. }
    assert (E2 : peek (bpre ++ x :: s ++ brest) p = x).
    { subst p. replace (length bpre) with (length bpre + 0)%nat by lia.
      by rewrite peek_app_r. }
    rewrite E1, E2.
    replace (apre ++ x :: s ++ arest) with ((apre ++ [x]) ++ s ++ arest)
      by (by rewrite <- app_assoc).
    replace (bpre ++ x :: s ++ brest) with ((bpre ++ [x]) ++ s ++ brest)
      by (by rewrite <- app_assoc).
    rewrite Forall_cons. unfold char_to_int, is_byte, is_ascii in *.
    destruct cs; cbn [andb].
    + destruct (Z.leb_spec 128 x) as [Hhi|Hlo].
      * replace (x - 256 =? x) with false by (symmetry; apply Z.eqb_neq; lia).
        cbn [negb]. split; [done|]. intros [?|[? _]]; [done | lia].
      * rewrite Z.eqb_refl. cbn [negb].
        rewrite (IH fuel (apre ++ [x]) arest (bpre ++ [x]) brest);
          rewrite ?length_app; simpl; try done; try lia.
        split; (intros [?|?]; [by left | right]); [split; [lia | done] | tauto].
    + rewrite Z.eqb_refl. cbn [negb].
      rewrite (IH fuel (apre ++ [x]) arest (bpre ++ [x]) brest);
        rewrite ?length_app; simpl; try lia; try done.
Qed.

(** X8.  Fewer than 8 bytes against their own packed form, which is a
    verbatim copy: [compare_packed] is true exactly when no byte has the
    high bit set or plain [char] is unsigned.  Where [char] is signed a
    byte above 0x7F makes the function reject a string compared with
    its own copy. *)
Theorem compare_packed_short_high_bit (char_signed : bool)
    (ascii bin : list Z) (a len b : nat) :
  (len < 8)%nat ->
  (a + len <= length ascii)%nat -> (b + len <= length bin)%nat ->
  Forall is_byte (load_bytes ascii a len) ->
  compare_packed char_signed (ascii_pack ascii a len bin b) b ascii a len = true
  <-> char_signed = false \/ Forall is_ascii (load_bytes ascii a len).
Proof.
  intros Hlen Ha Hb Hs.
  rewrite ascii_pack_spec by (rewrite ?binpacked_len_short; done).
  rewrite pack_bytes_short by (by rewrite load_bytes_length).
  rewrite binpacked_len_short by done.
  pose proof (compare_tail_verbatim char_signed (load_bytes ascii a len) len
                (take a ascii) (drop (a + len) ascii)
                (take b bin) (drop (b + len) bin) a (a + len) b Hs) as H.
  rewrite <- (buffer_window ascii a len Ha) in H.
  rewrite <- H; rewrite ?length_take, ?load_bytes_length; try lia.
  unfold compare_packed.
  assert (forall packed,
            compare_groups char_signed len packed ascii true a (a + len) b =
            inr (a, b)) as ->; [|done].
  intros packed. destruct len as [|len]; cbn [compare_groups]; [done|].
  replace (a + 8 <=? a + S len)%nat with false
    by (symmetry; apply Nat.leb_gt; lia).
  done.
Qed.

Lemma compare_packed_short_high_bit_witness :
  compare_packed true (ascii_pack [97; 200; 98] 0 3 (repeat 0 3) 0) 0
                 [97; 200; 98] 0 3 = false.
Proof.
  apply not_true_is_false. intros Htrue.
  apply (compare_packed_short_high_bit true [97; 200; 98] (repeat 0 3) 0 3 0)
    in Htrue.
  - destruct Htrue as [Hs|Hascii]; [discriminate Hs|].
    apply Forall_cons_1 in Hascii as [_ Hascii].
    apply Forall_cons_1 in Hascii as [H200 _].
    change (0 <= 200 < 128) in H200. lia.
  - lia.
  - vm_compute. lia.
  - vm_compute. lia.
  - forall_bytes.
Defined.

(** ** ascii_pack_simd *)

(** X9.  For 1 to 31 bytes the vector loop of [ascii_pack_simd] does not
    run, since [end = ascii + len - 32] lies before [ascii], and the
    function writes what [ascii_pack] writes. *)
Theorem ascii_pack_simd_below_32 (ascii bin : list Z) (a len b : nat) :
  (0 < len < 32)%nat ->
  ascii_pack_simd ascii a len bin b = ascii_pack ascii a len bin b.
Proof. intros [_ Hlen]. by apply ascii_pack_simd_short. Qed.

Lemma ascii_pack_simd_below_32_witness :
  let s := bytes_of_string "key:0000000000000" in
  ascii_pack_simd s 0 17 (repeat 0 15) 0 = ascii_pack s 0 17 (repeat 0 15) 0.
Proof. intros s. apply ascii_pack_simd_below_32. lia. Defined.

(** ** What a vector turn of [ascii_pack_simd] writes *)

Lemma load_bytes_ext (m m' : list Z) (a n : nat) :
  (forall i, (a <= i < a + n)%nat -> peek m i = peek m' i) ->
  load_bytes m a n = load_bytes m' a n.
Proof.
  intros H. unfold load_bytes. apply map_ext_in. intros i Hi.
  apply H. apply in_seq in Hi. lia.
Qed.

Lemma store_bytes_below (bs m : list Z) (b i : nat) :
  (i < b)%nat -> peek (store_bytes m b bs) i = peek m i.
Proof.
  revert m b. induction bs as [|x bs IH]; intros m b Hi; simpl; [done|].
  rewrite IH by lia. apply peek_poke_ne. lia.
Qed.

Lemma pack_groups_below (ascii : list Z) (e : nat) :
  forall (fuel a : nat) (bin : list Z) (b : nat),
    let '(_, b', bin') := pack_groups fuel ascii a e bin b in
    (b <= b')%nat /\ forall i, (i < b)%nat -> peek bin' i = peek bin i.
Proof.
  induction fuel as [|fuel IH]; intros a bin b; cbn [pack_groups]; [done|].
  destruct (a + 8 <=? e)%nat; [|done].
  specialize (IH (a + 8)%nat
                (store_bytes bin b (le_split 7 (pack_word (Load64 ascii a))))
                (b + 7)%nat).
  destruct (pack_groups fuel ascii (a + 8) e _ (b + 7)) as [[a' b'] bin'].
  destruct IH as [Hle Hframe]. split; [lia|].
  intros i Hi. rewrite Hframe by lia. by apply store_bytes_below.
Qed.

Lemma pack_epilog_below (ascii : list Z) (e : nat) :
  forall (fuel a : nat) (bin : list Z) (b i : nat),
    (i < b)%nat -> peek (pack_epilog fuel ascii a e bin b) i = peek bin i.
Proof.
  induction fuel as [|fuel IH]; intros a bin b i Hi; cbn [pack_epilog]; [done|].
  destruct (a <? e)%nat; [|done].
  rewrite IH by lia. apply peek_poke_ne. lia.
Qed.

(** [ascii_pack] writes nothing before [bin]. *)
Lemma ascii_pack_below (ascii bin : list Z) (a len b i : nat) :
  (i < b)%nat -> peek (ascii_pack ascii a len bin b) i = peek bin i.
Proof.
  intros Hi. unfold ascii_pack.
  pose proof (pack_groups_below ascii (a + len) len a bin b) as H.
  destruct (pack_groups len ascii a (a + len) bin b) as [[a' b'] bin'].
  destruct H as [Hle Hframe].
  rewrite pack_epilog_below by lia. by apply Hframe.
Qed.

Lemma pack_simd_fold (mask val dest : m128i) :
  fold_left (pack_simd_step mask) [1; 2; 3; 4; 5; 6; 7] (val, dest) =
  (val, dest).
Proof. reflexivity. Qed.

(** The low lane of [val & mask]: the low 7 bits of the first byte. *)
Lemma le_combine_land_127 (x : Z) (bs : list Z) :
  Z.land (le_combine (x :: bs)) (wrap64 127) = Z.land x 127.
Proof.
  change (wrap64 127) with 127. cbn [le_combine].
  apply Z.bits_inj'. intros n Hn.
  rewrite !Z.land_spec, Z.lor_spec, Z.shiftl_spec by lia.
  change 127 with (Z.ones 7). rewrite Z.testbit_ones_nonneg by lia.
  destruct (Z.ltb_spec n 7) as [Hlt|Hge]; [|by rewrite !andb_false_r].
  by rewrite (Z.testbit_neg_r _ (n - 8)), orb_false_r by lia.
Qed.

Lemma le_split_land_127 (x : Z) :
  le_split 8 (Z.land x 127) = [Z.land x 127; 0; 0; 0; 0; 0; 0; 0].
Proof.
  change 127 with (Z.ones 7). rewrite Z.land_ones by lia.
  pose proof (Z.mod_pos_bound x (2 ^ 7) ltac:(lia)) as Hx.
  cbn [le_split]. change 255 with (Z.ones 8).
  rewrite Z.land_ones by lia. rewrite (Z.mod_small (x mod 2 ^ 7)) by lia.
  rewrite Z.shiftr_div_pow2 by lia.
  rewrite (Z.div_small (x mod 2 ^ 7)) by lia.
  reflexivity.
Qed.

(** The three stores of a turn on a 16-byte window: the 16-byte store of
    the two lanes, then the 7 bytes at [bin + 8] moved to [bin + 7]. *)
Lemma simd_stores (pre m post : list Z) (b : nat) (x0 x1 : Z) :
  b = length pre -> length m = 16%nat ->
  let bin1 :=
    store_bytes (store_bytes (pre ++ m ++ post) b [x0; 0; 0; 0; 0; 0; 0; 0])
                (b + 8) [x1; 0; 0; 0; 0; 0; 0; 0] in
  store_bytes bin1 (b + 7) (load_bytes bin1 (b + 8) 7) =
  pre ++ [x0; 0; 0; 0; 0; 0; 0; x1; 0; 0; 0; 0; 0; 0; 0; 0] ++ post.
Proof.
  intros -> Hm.
  do 16 (destruct m as [|? m]; [discriminate Hm|]).
  destruct m; [|discriminate Hm]. clear Hm.
  cbv zeta.
  match goal with
  | |- context [store_bytes (pre ++ ?l) (length pre) ?s] =>
      pose proof (store_bytes_app_r s pre l 0) as E0
  end.
  rewrite Nat.add_0_r in E0. rewrite E0.
  rewrite !store_bytes_app_r, load_bytes_app_r.
  reflexivity.
Qed.

Lemma simd_one_turn (ascii bin : list Z) (a b : nat) :
  (b + 16 <= length bin)%nat ->
  let dest := _mm_and_si128 (_mm_loadu_si128 ascii a) (_mm_set1_epi64x 127) in
  let bin1 := _mm_storeu_si128 bin b dest in
  store_bytes bin1 (b + 7) (load_bytes bin1 (b + 8) 7) =
  take b bin
    ++ [Z.land (peek ascii a) 127; 0; 0; 0; 0; 0; 0;
        Z.land (peek ascii (a + 8)) 127; 0; 0; 0; 0; 0; 0; 0; 0]
    ++ drop (b + 16) bin.
Proof.
  intros Hb. cbv zeta.
  unfold _mm_and_si128, _mm_loadu_si128, _mm_set1_epi64x, Load64.
  cbn [lane0 lane1].
  rewrite (load_bytes_S ascii a 7), (load_bytes_S ascii (a + 8) 7).
  rewrite !le_combine_land_127.
  unfold _mm_storeu_si128, Store64. cbn [lane0 lane1].
  rewrite !le_split_land_127.
  pose proof (simd_stores (take b bin) (load_bytes bin b 16)
                (drop (b + 16) bin) b (Z.land (peek ascii a) 127)
                (Z.land (peek ascii (a + 8)) 127)
                ltac:(rewrite length_take; lia)
                ltac:(apply load_bytes_length)) as H.
  cbv zeta in H. rewrite <- (buffer_window bin b 16 Hb) in H. exact H.
Qed.

Lemma pack_simd_loop_below (ascii : list Z) (e : Z) :
  forall (fuel a : nat) (bin : list Z) (b : nat),
    let '(_, b', bin') :=
      pack_simd_loop fuel (_mm_set1_epi64x 127) ascii a e bin b in
    (b <= b')%nat /\ length bin' = length bin /\
    forall i, (i < b)%nat -> peek bin' i = peek bin i.
Proof.
  induction fuel as [|fuel IH]; intros a bin b; cbn [pack_simd_loop]; [done|].
  destruct (Z.of_nat a <=? e); [|done].
  rewrite pack_simd_fold.
  set (bin1 := _mm_storeu_si128 bin b _).
  set (bin2 := store_bytes bin1 _ _).
  specialize (IH (a + 16)%nat bin2 (b + 14)%nat).
  destruct (pack_simd_loop fuel _ ascii (a + 16) e bin2 (b + 14))
    as [[a' b'] bin'].
  destruct IH as (Hle & Hlen & Hframe). split; [lia|]. split.
  - rewrite Hlen. unfold bin2, bin1, _mm_storeu_si128, Store64.
    by rewrite !store_bytes_length.
  - intros i Hi. rewrite Hframe by lia.
    unfold bin2, bin1, _mm_storeu_si128, Store64.
    by rewrite !store_bytes_below by lia.
Qed.

(** Turn [j] of the vector loop, counted from 0, when the loop has fuel
    for it and [bin] has room for its 16-byte store. *)
Lemma pack_simd_loop_turn (ascii : list Z) (e : Z) :
  forall (j fuel a : nat) (bin : list Z) (b : nat),
    (j < fuel)%nat -> Z.of_nat a + 16 * Z.of_nat j <= e ->
    7 * (e - Z.of_nat a) <= 8 * (Z.of_nat (length bin) - Z.of_nat b - 16) ->
    let '(_, b', bin') :=
      pack_simd_loop fuel (_mm_set1_epi64x 127) ascii a e bin b in
    (b + 14 * (j + 1) <= b')%nat /\
    load_bytes bin' (b + 14 * j) 14 =
    [Z.land (peek ascii (a + 16 * j)) 127; 0; 0; 0; 0; 0; 0;
     Z.land (peek ascii (a + 16 * j + 8)) 127; 0; 0; 0; 0; 0; 0].
Proof.
  induction j as [|j IH]; intros fuel a bin b Hfuel Hj Hroom;
    (destruct fuel as [|fuel]; [lia|]); cbn [pack_simd_loop];
    replace (Z.of_nat a <=? e) with true by (symmetry; apply Z.leb_le; lia);
    rewrite pack_simd_fold.
  - pose proof (simd_one_turn ascii bin a b ltac:(lia)) as Hturn.
    cbv zeta in Hturn. rewrite Hturn. clear Hturn.
    set (bin2 := take b bin ++ _ ++ drop (b + 16) bin).
    pose proof (pack_simd_loop_below ascii e fuel (a + 16) bin2 (b + 14))
      as Hrest.
    destruct (pack_simd_loop fuel _ ascii (a + 16) e bin2 (b + 14))
      as [[a' b'] bin'].
    destruct Hrest as (Hle & _ & Hframe). split; [lia|].
    replace (b + 14 * 0)%nat with b by lia.
    replace (a + 16 * 0)%nat with a by lia.
    rewrite (load_bytes_ext bin' bin2 b 14)
      by (intros i Hi; apply Hframe; lia).
    unfold bin2.
    apply (load_bytes_at (take b bin)
             [Z.land (peek ascii a) 127; 0; 0; 0; 0; 0; 0;
              Z.land (peek ascii (a + 8)) 127; 0; 0; 0; 0; 0; 0]
             ([0; 0] ++ drop (b + 16) bin));
      [rewrite length_take; lia | reflexivity].
  - set (bin1 := _mm_storeu_si128 bin b _).
    set (bin2 := store_bytes bin1 _ _).
    assert (Hlen : length bin2 = length bin).
    { unfold bin2, bin1, _mm_storeu_si128, Store64.
      by rewrite !store_bytes_length. }
    specialize (IH fuel (a + 16)%nat bin2 (b + 14)%nat
                  ltac:(lia) ltac:(lia) ltac:(lia)).
    destruct (pack_simd_loop fuel _ ascii (a + 16) e bin2 (b + 14))
      as [[a' b'] bin'].
    destruct IH as [Hle Hwin]. split; [lia|].
    replace (b + 14 * S j)%nat with (b + 14 + 14 * j)%nat by lia.
    replace (a + 16 * S j)%nat with (a + 16 + 16 * j)%nat by lia.
    exact Hwin.
Qed.

(** X10.  From 32 bytes on, each turn of the vector loop of
    [ascii_pack_simd] leaves, for its 16 input bytes, the low 7 bits of
    the first and of the ninth byte, each followed by six zero bytes:
    the results of the shift and of the or in the inner loop are dropped,
    so the other 14 input bytes of the turn do not reach the output. *)
Theorem ascii_pack_simd_vector_turn (ascii bin : list Z) (a len b j : nat) :
  (a + len <= length ascii)%nat ->
  (b + binpacked_len len <= length bin)%nat ->
  (16 * j + 32 <= len)%nat ->
  load_bytes (ascii_pack_simd ascii a len bin b) (b + 14 * j) 14 =
  [Z.land (peek ascii (a + 16 * j)) 127; 0; 0; 0; 0; 0; 0;
   Z.land (peek ascii (a + 16 * j + 8)) 127; 0; 0; 0; 0; 0; 0].
Proof.
  intros Ha Hb Hj. unfold ascii_pack_simd.
  destruct (binpacked_len_div_mod len) as (Hlen & Hplen & Ht).
  pose proof (pack_simd_loop_turn ascii
                (Z.of_nat a + Z.of_nat len - 32) j len a bin b
                ltac:(lia) ltac:(lia) ltac:(lia)) as Hturn.
  destruct (pack_simd_loop len _ ascii a _ bin b) as [[a' b'] bin'].
  destruct Hturn as [Hle Hwin].
  rewrite <- Hwin. apply load_bytes_ext.
  intros i Hi. apply ascii_pack_below. lia.
Qed.

Lemma ascii_pack_simd_vector_turn_witness :
  let s := bytes_of_string "0123456789abcdefghijklmnopqrstuvwxyzABCDEFGHIJKL" in
  load_bytes (ascii_pack_simd s 0 48 (repeat 0 42) 0) (0 + 14 * 1) 14 =
  [Z.land (peek s (0 + 16 * 1)) 127; 0; 0; 0; 0; 0; 0;
   Z.land (peek s (0 + 16 * 1 + 8)) 127; 0; 0; 0; 0; 0; 0].
Proof.
  intros s.
  apply (ascii_pack_simd_vector_turn s (repeat 0 42) 0 48 0 1).
  - vm_compute. lia.
  - vm_compute. lia.
  - lia.
Defined.

(** * Further properties of StringMap *)

(** X11.  [ObjEqual] with cookie 0 on two laid-out keys returns, without
    changing the state, true exactly when the two fields are equal: fields
    of different lengths are unequal by the length test alone, and the
    value pointers after the NUL are never compared. *)
Theorem ObjEqual_decides_field_equality (st : state) (e k : Z)
    (f1 f2 : list Z) (v1 v2 : Z) :
  key_layout (heap st) e f1 v1 -> key_layout (heap st) k f2 v2 ->
  exists b, ObjEqual e k 0 st = Done b st /\ (b = true <-> f1 = f2).
Proof.
  intros H1 H2. exists (bool_decide (f1 = f2)).
  split; [by eapply ObjEqual_layout | apply bool_decide_eq_true].
Qed.

Lemma ObjEqual_decides_field_equality_witness :
  let st := State (<[1 := SdsBlock 2 (bytes_of_string "ab" ++ [0]
                                        ++ le_split 8 7)]>
                  (<[2 := SdsBlock 3 (bytes_of_string "abc" ++ [0]
                                        ++ le_split 8 7)]> ∅)) [] in
  exists b, ObjEqual 1 2 0 st = Done b st /\
            (b = true <-> bytes_of_string "ab" = bytes_of_string "abc").
Proof.
  intros st.
  apply (ObjEqual_decides_field_equality st 1 2 (bytes_of_string "ab")
           (bytes_of_string "abc") 7 7).
  - eexists. split; [vm_compute; reflexivity|]. split; reflexivity.
  - eexists. split; [vm_compute; reflexivity|]. split; reflexivity.
Defined.

(** X12.  Insert then delete.  When [AddOrSet] stores a field that no
    entry holds, it allocates exactly two blocks, the key at [p1] and the
    value at [p2], and leaves every block that was allocated as it was;
    [ObjDelete] on the new key then frees these two blocks and nothing
    else, so the heap is again the heap before the insertion. *)
Theorem AddOrSet_then_ObjDelete (zmalloc : gset Z -> option Z)
    (field value : list Z) (st : state) (p1 p2 : Z) (has_ttl : bool) :
  allocator_ok zmalloc -> Z.of_nat (length field) < 2 ^ 32 ->
  (forall e, In e (entries st) ->
     exists f v, key_layout (heap st) e f v /\ f <> field) ->
  zmalloc (dom (heap st)) = Some p1 ->
  zmalloc ({[p1]} ∪ dom (heap st)) = Some p2 ->
  exists st',
    AddOrSet zmalloc field value UINT32_MAX st = Done true st' /\
    entries st' = p1 :: entries st /\
    dom (heap st') = {[p1]} ∪ ({[p2]} ∪ dom (heap st)) /\
    (forall p blk, heap st !! p = Some blk -> heap st' !! p = Some blk) /\
    ObjDelete p1 has_ttl st' = Done tt (State (heap st) (p1 :: entries st)).
Proof.
  intros Hok Hlen Hall Hp1 Hp2.
  destruct (Hok _ _ Hp1) as [Hf1 Hr1], (Hok _ _ Hp2) as [Hf2 Hr2].
  assert (Hne : p1 <> p2)
    by (intros ->; apply Hf2; by apply elem_of_union_l, elem_of_singleton).
  assert (Hf2' : p2 ∉ dom (heap st))
    by (intros Hin2; apply Hf2; by apply elem_of_union_r).
  set (kb := SdsBlock (length field) (field ++ [0] ++ le_split 8 p2)).
  set (vb := SdsBlock (length value) (value ++ [0])).
  set (h4 := <[p1 := kb]> (<[p2 := vb]> (heap st))).
  exists (State h4 (p1 :: entries st)).
  split; [by apply AddOrSet_succeeds|].
  split; [done|]. cbn [heap entries].
  split; [unfold h4; by rewrite !dom_insert_L|].
  split; [by apply new_buffers_frame|].
  rewrite (ObjDelete_run (State h4 (p1 :: entries st)) p1 has_ttl field p2 vb);
    cbn [heap entries]; try (done || lia).
  - unfold h4. by rewrite new_buffers_released.
  - exists kb. unfold h4. by rewrite lookup_insert_eq.
  - unfold h4. by rewrite lookup_insert_ne, lookup_insert_eq by done.
Qed.

Lemma AddOrSet_then_ObjDelete_witness :
  let field := bytes_of_string "ab" in
  let value := bytes_of_string "xyz" in
  exists st',
    AddOrSet first_free field value UINT32_MAX (State ∅ []) = Done true st' /\
    entries st' = 1 :: entries (State ∅ []) /\
    dom (heap st') = {[1]} ∪ ({[2]} ∪ dom (heap (State ∅ []))) /\
    (forall p blk, heap (State ∅ []) !! p = Some blk ->
                   heap st' !! p = Some blk) /\
    ObjDelete 1 false st' =
    Done tt (State (heap (State ∅ [])) (1 :: entries (State ∅ []))).
Proof.
  intros field value.
  apply (AddOrSet_then_ObjDelete first_free field value (State ∅ []) 1 2
           false first_free_ok).
  - vm_compute. reflexivity.
  - intros e [].
  - vm_compute. reflexivity.
  - vm_compute. reflexivity.
Defined.

(** X13.  Insert twice.  After [AddOrSet] has stored a field, no further
    [AddOrSet] of that field returns, whatever the value and [ttl_sec]:
    the call aborts; and when its two allocations succeed it aborts in
    the state the first call left, the buffers of the second call having
    been freed. *)
Theorem AddOrSet_twice_aborts (zmalloc : gset Z -> option Z)
    (field value value' : list Z) (st : state) (p1 p2 : Z) :
  allocator_ok zmalloc -> Z.of_nat (length field) < 2 ^ 32 ->
  (forall e, In e (entries st) ->
     exists f v, key_layout (heap st) e f v /\ f <> field) ->
  zmalloc (dom (heap st)) = Some p1 ->
  zmalloc ({[p1]} ∪ dom (heap st)) = Some p2 ->
  exists st',
    AddOrSet zmalloc field value UINT32_MAX st = Done true st' /\
    (forall ttl_sec b st'',
       AddOrSet zmalloc field value' ttl_sec st' <> Done b st'') /\
    (forall p3 p4,
       zmalloc (dom (heap st')) = Some p3 ->
       zmalloc ({[p3]} ∪ dom (heap st')) = Some p4 ->
       AddOrSet zmalloc field value' UINT32_MAX st' = Fatal st').
Proof.
  intros Hok Hlen Hall Hp1 Hp2.
  destruct (Hok _ _ Hp1) as [Hf1 Hr1], (Hok _ _ Hp2) as [Hf2 Hr2].
  assert (Hne : p1 <> p2)
    by (intros ->; apply Hf2; by apply elem_of_union_l, elem_of_singleton).
  assert (Hf2' : p2 ∉ dom (heap st))
    by (intros Hin2; apply Hf2; by apply elem_of_union_r).
  set (kb := SdsBlock (length field) (field ++ [0] ++ le_split 8 p2)).
  set (vb := SdsBlock (length value) (value ++ [0])).
  set (h := <[p1 := kb]> (<[p2 := vb]> (heap st))).
  set (st' := State h (p1 :: entries st)).
  exists st'. split; [by apply AddOrSet_succeeds|].
  assert (Hkeys : forall e, In e (entries st') ->
                            exists f v, key_layout h e f v).
  { intros e [<-|He].
    - exists field, p2, kb. unfold h. by rewrite lookup_insert_eq.
    - destruct (Hall e He) as (f & v & (blk & ? & ?) & _).
      exists f, v, blk. split; [by apply new_buffers_frame | done]. }
  assert (Hrun : forall p3 p4,
    zmalloc (dom (heap st')) = Some p3 ->
    zmalloc ({[p3]} ∪ dom (heap st')) = Some p4 ->
    (ok <- AddInternal p3 false ;;
     if negb ok then ObjDelete p3 false ;; fatal else ret true)
      (State (<[p3 := SdsBlock (length field)
                         (field ++ [0] ++ le_split 8 p4)]>
                (<[p4 := SdsBlock (length value') (value' ++ [0])]>
                   (heap st')))
             (entries st')) = Fatal st').
  { intros p3 p4 Hp3 Hp4.
    destruct (Hok _ _ Hp3) as [Hf3 Hr3], (Hok _ _ Hp4) as [Hf4 Hr4].
    assert (Hne' : p3 <> p4)
      by (intros ->; apply Hf4; by apply elem_of_union_l, elem_of_singleton).
    assert (Hf4' : p4 ∉ dom (heap st'))
      by (intros Hin4; apply Hf4; by apply elem_of_union_r).
    set (kb' := SdsBlock (length field) (field ++ [0] ++ le_split 8 p4)).
    set (vb' := SdsBlock (length value') (value' ++ [0])).
    set (h4 := <[p3 := kb']> (<[p4 := vb']> (heap st'))).
    set (st4 := State h4 (entries st')).
    assert (Hframe : forall p blk, heap st' !! p = Some blk ->
                                   h4 !! p = Some blk)
      by (by apply new_buffers_frame).
    assert (Hkey : key_layout (heap st4) p3 field p4).
    { exists kb'. unfold st4, h4. cbn [heap]. by rewrite lookup_insert_eq. }
    assert (Hfind : FindEqual p3 (entries st') st4 = Done true st4).
    { apply (FindEqual_found p3 field p4 st4 (entries st') Hkey).
      - intros e He. destruct (Hkeys e He) as (f & ve & blk & ? & ?).
        exists f, ve, blk. split; [by apply Hframe | done].
      - exists p1, p2. split; [by left|].
        exists kb. split; [|done]. apply Hframe. unfold st', h. cbn [heap].
        by rewrite lookup_insert_eq. }
    unfold bind at 1. unfold AddInternal, bind at 1.
    change (entries st4) with (entries st'). rewrite Hfind. cbn [negb].
    unfold ret at 1. unfold bind. cbn [negb]. cbv beta.
    rewrite (ObjDelete_run st4 p3 false field p4 vb'); try (done || lia).
    + unfold fatal. unfold st4, h4. cbn [heap entries].
      rewrite new_buffers_released by done.
      change (entries st') with (p1 :: entries st). done.
    + unfold st4, h4. cbn [heap].
      by rewrite lookup_insert_ne, lookup_insert_eq by done. }
  split.
  - intros ttl_sec b st'' Hdone.
    rewrite (AddOrSet_outcome zmalloc) in Hdone by done.
    destruct (decide (ttl_sec = UINT32_MAX)); [|discriminate].
    destruct (zmalloc (dom (heap st'))) as [p3|] eqn:Hp3; [|discriminate].
    rewrite decide_True in Hdone by done.
    destruct (zmalloc ({[p3]} ∪ dom (heap st'))) as [p4|] eqn:Hp4;
      [|discriminate].
    rewrite (Hrun p3 p4 eq_refl Hp4) in Hdone. discriminate.
  - intros p3 p4 Hp3 Hp4.
    rewrite (AddOrSet_outcome zmalloc) by done.
    rewrite decide_True, Hp3, decide_True, Hp4 by done.
    by apply Hrun.
Qed.

Lemma AddOrSet_twice_aborts_witness :
  let field := bytes_of_string "ab" in
  exists st',
    AddOrSet first_free field (bytes_of_string "xyz") UINT32_MAX (State ∅ [])
      = Done true st' /\
    (forall ttl_sec b st'',
       AddOrSet first_free field (bytes_of_string "q") ttl_sec st'
       <> Done b st'') /\
    (forall p3 p4,
       first_free (dom (heap st')) = Some p3 ->
       first_free ({[p3]} ∪ dom (heap st')) = Some p4 ->
       AddOrSet first_free field (bytes_of_string "q") UINT32_MAX st'
       = Fatal st').
Proof.
  intros field.
  apply (AddOrSet_twice_aborts first_free field (bytes_of_string "xyz")
           (bytes_of_string "q") (State ∅ []) 1 2 first_free_ok).
  - vm_compute. reflexivity.
  - intros e [].
  - vm_compute. reflexivity.
  - vm_compute. reflexivity.
Defined.

(** X14.  A field of 4 GiB or more.  [AllocSdsWithSpace] takes the length
    as a [uint32_t], so the key buffer is sized by the length modulo
    2^32, while [memcpy] copies all of [field.size()] bytes: the copy runs
    past the end of the buffer, which is undefined behaviour. *)
Theorem AddOrSet_oversize_field (zmalloc : gset Z -> option Z)
    (field value : list Z) (st : state) (p1 : Z) :
  allocator_ok zmalloc -> 2 ^ 32 <= Z.of_nat (length field) ->
  zmalloc (dom (heap st)) = Some p1 ->
  AddOrSet zmalloc field value UINT32_MAX st = Undefined.
Proof.
  intros Hok Hlen Hp1. rewrite (AddOrSet_outcome zmalloc) by done.
  rewrite decide_True, Hp1 by done. apply decide_False. lia.
Qed.

Lemma AddOrSet_oversize_field_witness :
  AddOrSet first_free (repeat 0 (Z.to_nat (2 ^ 32))) [] UINT32_MAX
           (State ∅ []) = Undefined.
Proof.
  apply (AddOrSet_oversize_field first_free _ [] (State ∅ []) 1 first_free_ok).
  - rewrite repeat_length, Z2Nat.id; lia.
  - vm_compute. reflexivity.
Defined.

